(** * Paste Code Cleaner: the text transforms of [src/main.ts]

    A shallow embedding of the four pure functions of the plugin
    ([smartCleanBlankLines], [cleanTrailingWhitespace],
    [getCodeBlockAtCursor], [cleanCodeBlock]) and of the JavaScript string
    primitives they call, followed by the properties of the specification.

    A JavaScript string is a sequence of UTF-16 code units; it is modelled
    as a list of code units, so that [.length] is [length]. *)

From stdpp Require Import strings list.
From Stdlib Require Import ZArith NArith Lia.
From Stdlib Require Ascii.

Local Open Scope N_scope.

(** ** JavaScript strings *)

Definition char := N.
Definition jsstring := list char.

(** A string literal of the source (ASCII only). *)
Fixpoint str (s : string) : jsstring :=
  match s with
  | EmptyString => []
  | String a r => Ascii.N_of_ascii a :: str r
  end.

(** The code units [String.prototype.trim] and friends strip: ECMAScript
    WhiteSpace (TAB, VT, FF, SP, NBSP, ZWNBSP and category Zs) and
    LineTerminator (LF, CR, LS, PS). *)
Definition isWhiteSpace (c : char) : bool :=
  (c =? 9) || (c =? 10) || (c =? 11) || (c =? 12) || (c =? 13) ||
  (c =? 32) || (c =? 160) || (c =? 5760) ||
  ((8192 <=? c) && (c <=? 8202)) ||
  (c =? 8232) || (c =? 8233) || (c =? 8239) || (c =? 8287) ||
  (c =? 12288) || (c =? 65279).

Local Close Scope N_scope.

(** [s.trimStart()] *)
Fixpoint trimStart (s : jsstring) : jsstring :=
  match s with
  | [] => []
  | c :: r => if isWhiteSpace c then trimStart r else s
  end.

(** [s.trimEnd()] *)
Fixpoint trimEnd (s : jsstring) : jsstring :=
  match s with
  | [] => []
  | c :: r =>
      match trimEnd r with
      | [] => if isWhiteSpace c then [] else [c]
      | r' => c :: r'
      end
  end.

(** [s.trim()] *)
Definition trim (s : jsstring) : jsstring := trimStart (trimEnd s).

(** [s === ''] *)
Definition isEmpty (s : jsstring) : bool :=
  match s with [] => true | _ => false end.

(** [s.startsWith(p)] *)
Fixpoint startsWith (p s : jsstring) : bool :=
  match p, s with
  | [], _ => true
  | _ :: _, [] => false
  | a :: p', b :: s' => N.eqb a b && startsWith p' s'
  end.

(** [s.endsWith(p)] *)
Definition endsWith (p s : jsstring) : bool :=
  startsWith (rev p) (rev s).

(** [s.split(sep)] for a one-unit separator: never the empty array. *)
Fixpoint split (sep : char) (s : jsstring) : list jsstring :=
  match s with
  | [] => [[]]
  | c :: r =>
      if N.eqb c sep then [] :: split sep r
      else match split sep r with
           | [] => [[c]]
           | h :: t => (c :: h) :: t
           end
  end.

(** [a.join(sep)] for a one-unit separator. *)
Fixpoint join (sep : char) (a : list jsstring) : jsstring :=
  match a with
  | [] => []
  | x :: r =>
      match r with
      | [] => x
      | _ :: _ => x ++ sep :: join sep r
      end
  end.

(** [a.slice(start, end)], with JavaScript's treatment of negative and
    out-of-range bounds. *)
Definition slice {A} (a : list A) (start stop : Z) : list A :=
  let len := Z.of_nat (length a) in
  let k := if (start <? 0)%Z then Z.max (len + start) 0 else Z.min start len in
  let final := if (stop <? 0)%Z then Z.max (len + stop) 0 else Z.min stop len in
  take (Z.to_nat (final - k)) (drop (Z.to_nat k) a).

(** [a[i] ?? ''] *)
Definition at_ (a : list jsstring) (i : nat) : jsstring :=
  default [] (a !! i).

Definition LF : char := 10%N.

(** ** [smartCleanBlankLines] *)

Definition isOpener (s : jsstring) : bool :=
  endsWith (str "(") s || endsWith (str "[") s || endsWith (str "{") s.

Definition isCloser (s : jsstring) : bool :=
  startsWith (str ")") s || startsWith (str "]") s || startsWith (str "}") s.

(** [result.length > 0 ? (result[result.length - 1] ?? '').trim() : ''] *)
Definition lastTrimmed (result : list jsstring) : jsstring :=
  if 0 <? length result then trim (at_ result (length result - 1)) else [].

(** The body of the [for] loop at index [i]; [continue] leaves [result]
    as it is. *)
Definition cleanStep (lines : list jsstring) (result : list jsstring) (i : nat)
  : list jsstring :=
  let line := at_ lines i in
  let trimmedLine := trim line in
  let isBlank := isEmpty trimmedLine in
  if negb isBlank then result ++ [line]
  else
    let prevLine := lastTrimmed result in
    let nextLine := if i + 1 <? length lines then trim (at_ lines (i + 1)) else [] in
    if isOpener prevLine then result
    else if isCloser nextLine then result
    else
      let lastResultLine := lastTrimmed result in
      if isEmpty lastResultLine then result
      else result ++ [line].

Definition smartCleanBlankLines (lines : list jsstring) : list jsstring :=
  foldl (cleanStep lines) [] (seq 0 (length lines)).

(** ** [cleanTrailingWhitespace] *)

Definition cleanTrailingWhitespace (text : jsstring) : jsstring :=
  let lines := map trimEnd (split LF text) in
  join LF (smartCleanBlankLines lines).

(** ** [getCodeBlockAtCursor] *)

Record Position := { line : Z; ch : Z }.

Record CodeBlockInfo := {
  from : Position;
  to : Position;
  content : jsstring
}.

(** What the function reads of the host editor. *)
Record Editor := {
  getCursor : Position;
  getValue : jsstring
}.

Definition fence : jsstring := str "```".

(** The [for] loop over the indices [todo] still to visit, with the two
    loop variables; [return] inside the loop ends the scan. *)
Fixpoint scanLines (lines : list jsstring) (cursorLine : Z) (todo : list nat)
    (inCodeBlock : bool) (codeBlockStart : Z) : option CodeBlockInfo :=
  match todo with
  | [] => None
  | i :: rest =>
      let line := at_ lines i in
      let trimmedLine := trimStart line in
      if negb inCodeBlock && startsWith fence trimmedLine then
        scanLines lines cursorLine rest true (Z.of_nat i)
      else if inCodeBlock && startsWith fence trimmedLine then
        let codeBlockEnd := Z.of_nat i in
        if (codeBlockStart <=? cursorLine)%Z && (cursorLine <=? codeBlockEnd)%Z then
          let fromCh := 0%Z in
          let endLine := at_ lines (Z.to_nat codeBlockEnd) in
          let toCh := Z.of_nat (length endLine) in
          let blockLines := slice lines codeBlockStart (codeBlockEnd + 1) in
          let blockContent := join LF blockLines in
          Some {| from := {| line := codeBlockStart; ch := fromCh |};
                  to := {| line := codeBlockEnd; ch := toCh |};
                  content := blockContent |}
        else scanLines lines cursorLine rest false (-1)%Z
      else scanLines lines cursorLine rest inCodeBlock codeBlockStart
  end.

Definition getCodeBlockAtCursor (editor : Editor) : option CodeBlockInfo :=
  let cursorLine := line (getCursor editor) in
  let content := getValue editor in
  let lines := split LF content in
  scanLines lines cursorLine (seq 0 (length lines)) false (-1)%Z.

(** ** [cleanCodeBlock] *)

Definition cleanCodeBlock (content : jsstring) : jsstring :=
  let lines := split LF content in
  if length lines <? 2 then content
  else
    let openingFence := at_ lines 0 in
    let closingFence := at_ lines (length lines - 1) in
    let codeLines := slice lines 1 (Z.of_nat (length lines) - 1) in
    let cleanedLines := map trimEnd codeLines in
    let processedLines := smartCleanBlankLines cleanedLines in
    join LF ([openingFence] ++ processedLines ++ [closingFence]).

(** ** The specification's reading of the two algorithms

    These definitions follow the words of the specification, not the code;
    the theorems below compare them with the functions above. *)

Module Spec.

(** A blank line: empty once leading and trailing whitespace is stripped. *)
Definition isBlankLine (l : jsstring) : bool := isEmpty (trim l).

(** The last character of a trimmed neighbour is an opening bracket. *)
Definition endsWithOpener (s : jsstring) : bool :=
  match last s with
  | Some c => bool_decide (c = 40 \/ c = 91 \/ c = 123)%N
  | None => false
  end.

(** The first character of a trimmed neighbour is a closing bracket. *)
Definition startsWithCloser (s : jsstring) : bool :=
  match head s with
  | Some c => bool_decide (c = 41 \/ c = 93 \/ c = 125)%N
  | None => false
  end.

(** The trimmed form of the last line already appended to the output, the
    empty string if the output is empty. *)
Definition prevEmitted (out : list jsstring) : jsstring :=
  match last out with
  | Some l => trim l
  | None => []
  end.

(** The trimmed form of the next input line, the empty string if this is
    the last line. *)
Definition nextInput (rest : list jsstring) : jsstring :=
  match rest with
  | n :: _ => trim n
  | [] => []
  end.

(** What happens to a blank line, and which check decided it. *)
Inductive verdict := SuppressOpener | SuppressCloser | SuppressRun | Emit.

(** Opener check, then closer check, then run collapse. *)
Definition blankVerdict (prev next : jsstring) : verdict :=
  if endsWithOpener prev then SuppressOpener
  else if startsWithCloser next then SuppressCloser
  else if isEmpty prev then SuppressRun
  else Emit.

Definition emits (v : verdict) : bool :=
  match v with Emit => true | _ => false end.

(** One pass over the input, the output built incrementally. *)
Fixpoint normalizeFrom (out rest : list jsstring) : list jsstring :=
  match rest with
  | [] => out
  | l :: rest' =>
      if isBlankLine l then
        if emits (blankVerdict (prevEmitted out) (nextInput rest'))
        then normalizeFrom (out ++ [l]) rest'
        else normalizeFrom out rest'
      else normalizeFrom (out ++ [l]) rest'
  end.

Definition normalize (lines : list jsstring) : list jsstring :=
  normalizeFrom [] lines.

(** A line that, after stripping leading whitespace, starts with the fence
    marker. *)
Definition isFenceLine (l : jsstring) : bool :=
  startsWith fence (trimStart l).

(** The forward scan: a fence line outside a block opens one at its index,
    a fence line inside a block closes it; [i] is the index of the head of
    [rest], [opened] the recorded start while inside a block. *)
Fixpoint pairFences (rest : list jsstring) (i : nat) (opened : option nat)
  : list (nat * nat) :=
  match rest with
  | [] => []
  | l :: rest' =>
      if isFenceLine l then
        match opened with
        | None => pairFences rest' (S i) (Some i)
        | Some s => (s, i) :: pairFences rest' (S i) None
        end
      else pairFences rest' (S i) opened
  end.

(** The matched (start, end) pairs of a document, in document order. *)
Definition fencePairs (doc : list jsstring) : list (nat * nat) :=
  pairFences doc 0 None.

(** The span of the block from line [s] to line [e] of [doc]. *)
Definition blockSpan (doc : list jsstring) (s e : nat) : CodeBlockInfo :=
  {| from := {| line := Z.of_nat s; ch := 0 |};
     to := {| line := Z.of_nat e; ch := Z.of_nat (length (at_ doc e)) |};
     content := join LF (take (S e - s) (drop s doc)) |}.

(** The cursor line falls within [start, end], both ends included. *)
Definition encloses (cursorLine : Z) (p : nat * nat) : bool :=
  (Z.of_nat p.1 <=? cursorLine)%Z && (cursorLine <=? Z.of_nat p.2)%Z.

(** The span of the first matched pair that encloses the cursor line, or
    nothing. *)
Definition locate (doc : list jsstring) (cursorLine : Z) : option CodeBlockInfo :=
  match List.find (encloses cursorLine) (fencePairs doc) with
  | Some p => Some (blockSpan doc p.1 p.2)
  | None => None
  end.

End Spec.

(** ** Vocabulary of the statements *)

(** Line [i] of [l] exists and is blank. *)
Definition blankAt (l : list jsstring) (i : nat) : Prop :=
  exists x, l !! i = Some x /\ trim x = [].

(** Line [i] of [l] exists and is not blank. *)
Definition nonBlankAt (l : list jsstring) (i : nat) : Prop :=
  exists x, l !! i = Some x /\ trim x <> [].

(** Every blank line of [l] comes directly after a line that is not
    blank. *)
Definition spaced (l : list jsstring) : Prop :=
  forall i, blankAt l i -> exists j, i = S j /\ nonBlankAt l j.

(** No blank line of [l] comes directly after a line that ends, once
    trimmed, with an opening bracket. *)
Definition noBlankAfterOpener (l : list jsstring) : Prop :=
  forall i p, l !! i = Some p -> blankAt l (S i) ->
    Spec.endsWithOpener (trim p) = false.

(** No blank line of [l] comes directly before a line that starts, once
    trimmed, with a closing bracket. *)
Definition noBlankBeforeCloser (l : list jsstring) : Prop :=
  forall i y, blankAt l i -> l !! S i = Some y ->
    Spec.startsWithCloser (trim y) = false.

(** The input with a run of two blank lines before a closing bracket. *)
Definition blankRunBeforeCloser : list jsstring :=
  [str "a"; str ""; str ""; str ")"].

(** The loop variables [inCodeBlock] and [codeBlockStart] as the recorded
    start of the specification's scan, when the lines before index
    [visited] have been read. *)
Definition scanState (visited : nat) (inCodeBlock : bool) (codeBlockStart : Z)
    (opened : option nat) : Prop :=
  match opened with
  | None => inCodeBlock = false
  | Some s => inCodeBlock = true /\ codeBlockStart = Z.of_nat s /\ s < visited
  end.

(** Scenario E of the specification: the document and a cursor line. *)
Definition scenarioE (cursorLine : Z) : Editor :=
  {| getCursor := {| line := cursorLine; ch := 0 |};
     getValue := join LF [str "text"; str "```js"; str "code("; str "";
                          str ")"; str "```"; str "more"] |}.

(** A document whose only block is never closed. *)
Definition unterminated (cursorLine : Z) : Editor :=
  {| getCursor := {| line := cursorLine; ch := 0 |};
     getValue := join LF [str "text"; str "```js"; str "code"] |}.

(** ** The plugin: settings, commands and the paste handler

    The host editor is outside the program; a command is modelled by the
    calls it makes on the host, in the order it makes them. *)

(** [PasteCodeCleanerSettings] and [DEFAULT_SETTINGS] of [settings.ts]. *)
Record PasteCodeCleanerSettings := { autoCleanOnPaste : bool }.

Definition DEFAULT_SETTINGS : PasteCodeCleanerSettings :=
  {| autoCleanOnPaste := false |}.

(** [Partial<PasteCodeCleanerSettings>]: the key may be absent. *)
Record PartialSettings := { savedAutoCleanOnPaste : option bool }.

(** [Object.assign({}, DEFAULT_SETTINGS, await this.loadData())];
    [loadData] gives [null] when nothing was saved, and [Object.assign]
    skips a [null] source. *)
Definition loadSettings (data : option PartialSettings) : PasteCodeCleanerSettings :=
  match data with
  | None => DEFAULT_SETTINGS
  | Some saved =>
      match savedAutoCleanOnPaste saved with
      | Some v => {| autoCleanOnPaste := v |}
      | None => DEFAULT_SETTINGS
      end
  end.

(** The editor as the commands read it: cursor and document, and the
    selected text ([editor.getSelection()]). *)
Record SelectingEditor := {
  baseEditor :> Editor;
  getSelection : jsstring
}.

(** The calls of the program on the editor, the notice area and the paste
    event. *)
Inductive HostCall :=
| replaceSelection (replacement : jsstring)
| replaceRange (replacement : jsstring) (start stop : Position)
| setSelection (anchor head : Position)
| newNotice (message : string)
| preventDefault.

(** [a !== b] on strings. *)
Definition strictNotEqual (a b : jsstring) : bool := negb (bool_decide (a = b)).

(** [cleanCodeBlockCommand]; [if (selection)] holds for a string that is
    not empty. *)
Definition cleanCodeBlockCommand (editor : SelectingEditor) : list HostCall :=
  let selection := getSelection editor in
  if negb (isEmpty selection) then
    let cleaned := cleanTrailingWhitespace selection in
    if strictNotEqual cleaned selection then
      [replaceSelection cleaned;
       newNotice "Cleaned trailing whitespace in selection"]
    else [newNotice "No trailing whitespace found in selection"]
  else
    match getCodeBlockAtCursor editor with
    | Some codeBlock =>
        let cleaned := cleanCodeBlock (content codeBlock) in
        if strictNotEqual cleaned (content codeBlock) then
          [replaceRange cleaned (from codeBlock) (to codeBlock);
           newNotice "Cleaned trailing whitespace in code block"]
        else [newNotice "No trailing whitespace found in code block"]
    | None =>
        [newNotice "Cursor is not inside a code block. Select text or place cursor in a code block."]
    end.

(** [selectCodeBlockCommand] *)
Definition selectCodeBlockCommand (editor : Editor) : list HostCall :=
  match getCodeBlockAtCursor editor with
  | Some codeBlock =>
      [setSelection (from codeBlock) (to codeBlock);
       newNotice "Code block selected"]
  | None => [newNotice "Cursor is not inside a code block"]
  end.

(** A paste event: [clipboardData] may be [null]; when present, the text
    is what [getData('text/plain')] returns. *)
Record ClipboardEvent := { clipboardData : option jsstring }.

(** [handlePaste] *)
Definition handlePaste (evt : ClipboardEvent) : list HostCall :=
  match clipboardData evt with
  | None => []
  | Some text =>
      if isEmpty text then []
      else
        let cleaned := cleanTrailingWhitespace text in
        if strictNotEqual cleaned text then
          [preventDefault; replaceSelection cleaned]
        else []
  end.

(** The [editor-paste] handler registered by [onload]. *)
Definition onEditorPaste (settings : PasteCodeCleanerSettings)
    (evt : ClipboardEvent) : list HostCall :=
  if autoCleanOnPaste settings then handlePaste evt else [].

(** ** More vocabulary *)

(** A line that is not blank, as a test. *)
Definition nonBlank (l : jsstring) : bool := negb (isEmpty (trim l)).

(** A string that does not end with a whitespace code unit. *)
Definition noTrailingWhitespace (l : jsstring) : Prop :=
  forall c, last l = Some c -> isWhiteSpace c = false.

(** No two adjacent lines of [l] are both blank. *)
Definition noConsecutiveBlank (l : list jsstring) : Prop :=
  forall i, ~ (blankAt l i /\ blankAt l (S i)).

(** The last line of the output under construction is blank. *)
Definition lastBlank (out : list jsstring) : bool :=
  match last out with
  | Some b => isEmpty (trim b)
  | None => false
  end.

(** A call that changes the document. *)
Definition isEdit (c : HostCall) : bool :=
  match c with
  | replaceSelection _ | replaceRange _ _ _ => true
  | _ => false
  end.

(** * Properties *)

(** ** String primitives *)

(** Replace the code unit of a literal character by its number. *)
Ltac eval_units :=
  repeat match goal with
  | |- context [Ascii.N_of_ascii ?a] =>
      let v := eval vm_compute in (Ascii.N_of_ascii a) in
      change (Ascii.N_of_ascii a) with v
  end.

Lemma at_middle (pre : list jsstring) l rest : at_ (pre ++ l :: rest) (length pre) = l.
Proof. unfold at_. by rewrite list_lookup_middle. Qed.

Lemma startsWith_single c s :
  startsWith [c] s = match head s with Some b => N.eqb c b | None => false end.
Proof. destruct s as [|b s]; simpl; [done|]. by rewrite andb_true_r. Qed.

Lemma endsWith_single c s :
  endsWith [c] s = match last s with Some b => N.eqb c b | None => false end.
Proof.
  unfold endsWith. destruct s as [|b s _] using rev_ind; [done|].
  rewrite rev_app_distr, last_snoc. simpl. by rewrite andb_true_r.
Qed.

Lemma isOpener_spec s : isOpener s = Spec.endsWithOpener s.
Proof.
  unfold isOpener, Spec.endsWithOpener. cbn [str].
  rewrite !endsWith_single. destruct (last s) as [c|]; [|done].
  eval_units.
  destruct (N.eqb_spec 40 c), (N.eqb_spec 91 c), (N.eqb_spec 123 c);
    simpl; symmetry;
    first [ apply bool_decide_eq_true; lia | apply bool_decide_eq_false; lia ].
Qed.

Lemma isCloser_spec s : isCloser s = Spec.startsWithCloser s.
Proof.
  unfold isCloser, Spec.startsWithCloser. cbn [str].
  rewrite !startsWith_single. destruct (head s) as [c|]; [|done].
  eval_units.
  destruct (N.eqb_spec 41 c), (N.eqb_spec 93 c), (N.eqb_spec 125 c);
    simpl; symmetry;
    first [ apply bool_decide_eq_true; lia | apply bool_decide_eq_false; lia ].
Qed.

Lemma isEmpty_true s : isEmpty s = true <-> s = [].
Proof. by destruct s. Qed.

Lemma isEmpty_false s : isEmpty s = false <-> s <> [].
Proof. by destruct s. Qed.

(** ** The loop of [smartCleanBlankLines] against the one-pass reading *)

Lemma lastTrimmed_spec result : lastTrimmed result = Spec.prevEmitted result.
Proof.
  unfold lastTrimmed, Spec.prevEmitted.
  destruct result as [|x result _] using rev_ind; [done|].
  rewrite last_snoc, length_app. simpl.
  replace (length result + 1 - 1) with (length result) by lia.
  rewrite at_middle.
  by destruct (Nat.ltb_spec 0 (length result + 1)); [|lia].
Qed.

Lemma nextLine_spec (pre : list jsstring) l rest :
  (if length pre + 1 <? length (pre ++ l :: rest)
   then trim (at_ (pre ++ l :: rest) (length pre + 1)) else [])
  = Spec.nextInput rest.
Proof.
  rewrite length_app. simpl.
  destruct rest as [|n rest]; simpl.
  - by destruct (Nat.ltb_spec (length pre + 1) (length pre + 1)); [lia|].
  - destruct (Nat.ltb_spec (length pre + 1) (length pre + S (S (length rest)))); [|lia].
    replace (pre ++ l :: n :: rest) with ((pre ++ [l]) ++ n :: rest)
      by by rewrite <- app_assoc.
    replace (length pre + 1) with (length (pre ++ [l]))
      by (rewrite length_app; simpl; lia).
    by rewrite at_middle.
Qed.

(** The loop body at the index of [l], in the vocabulary of the
    specification. *)
Lemma cleanStep_spec (pre : list jsstring) l rest result :
  cleanStep (pre ++ l :: rest) result (length pre)
  = if Spec.isBlankLine l
    then if Spec.emits (Spec.blankVerdict (Spec.prevEmitted result) (Spec.nextInput rest))
         then result ++ [l] else result
    else result ++ [l].
Proof.
  unfold cleanStep, Spec.isBlankLine, Spec.blankVerdict.
  rewrite at_middle, nextLine_spec, lastTrimmed_spec, isOpener_spec, isCloser_spec.
  destruct (isEmpty (trim l)); simpl; [|done].
  destruct (Spec.endsWithOpener _); [done|].
  destruct (Spec.startsWithCloser _); [done|].
  by destruct (isEmpty _).
Qed.

Lemma foldl_cleanStep (rest pre out : list jsstring) :
  foldl (cleanStep (pre ++ rest)) out (seq (length pre) (length rest))
  = Spec.normalizeFrom out rest.
Proof.
  revert pre out. induction rest as [|l rest IH]; intros pre out; [done|].
  cbn [length seq foldl Spec.normalizeFrom].
  rewrite cleanStep_spec.
  replace (pre ++ l :: rest) with ((pre ++ [l]) ++ rest) by by rewrite <- app_assoc.
  replace (S (length pre)) with (length (pre ++ [l]))
    by (rewrite length_app; simpl; lia).
  rewrite IH.
  destruct (Spec.isBlankLine l); [|done].
  by destruct (Spec.emits _).
Qed.

Lemma smartCleanBlankLines_normalize lines :
  smartCleanBlankLines lines = Spec.normalize lines.
Proof. apply (foldl_cleanStep lines [] []). Qed.

(** ** Invariants of the output under construction *)

Lemma emits_prev_nonempty prev next :
  Spec.emits (Spec.blankVerdict prev next) = true -> prev <> [].
Proof.
  unfold Spec.blankVerdict.
  destruct (Spec.endsWithOpener prev); [done|].
  destruct (Spec.startsWithCloser next); [done|].
  destruct prev; [done|]. by intros _.
Qed.

Lemma emits_next_not_closer prev next :
  Spec.emits (Spec.blankVerdict prev next) = true ->
  Spec.startsWithCloser next = false.
Proof.
  unfold Spec.blankVerdict.
  destruct (Spec.endsWithOpener prev); [done|].
  by destruct (Spec.startsWithCloser next).
Qed.

Lemma normalizeFrom_kept (rest out : list jsstring) :
  exists kept, Spec.normalizeFrom out rest = out ++ kept /\ kept `sublist_of` rest.
Proof.
  revert out. induction rest as [|l rest IH]; intros out; simpl.
  - exists []. by rewrite app_nil_r.
  - assert (Hpush : exists kept, Spec.normalizeFrom (out ++ [l]) rest = out ++ kept
                      /\ kept `sublist_of` l :: rest).
    { destruct (IH (out ++ [l])) as (k & -> & Hk).
      exists (l :: k). rewrite <- app_assoc. split; [done|]. by constructor. }
    assert (Hskip : exists kept, Spec.normalizeFrom out rest = out ++ kept
                      /\ kept `sublist_of` l :: rest).
    { destruct (IH out) as (k & -> & Hk). exists k. split; [done|]. by constructor. }
    destruct (Spec.isBlankLine l); [|done].
    by destruct (Spec.emits _).
Qed.

Lemma blankAt_snoc_inv (out : list jsstring) l i :
  blankAt (out ++ [l]) i -> blankAt out i \/ (i = length out /\ trim l = []).
Proof.
  intros (x & Hx & Hb).
  apply lookup_app_Some in Hx as [Hx | [Hlen Hx]].
  - left. by exists x.
  - right. apply list_lookup_singleton_Some in Hx as [Hi ->].
    split; [lia | done].
Qed.

Lemma nonBlankAt_snoc (out : list jsstring) l j :
  nonBlankAt out j -> nonBlankAt (out ++ [l]) j.
Proof.
  intros (x & Hx & Hb). exists x. split; [|done]. by apply lookup_app_l_Some.
Qed.

Lemma spaced_snoc_nonblank (out : list jsstring) l :
  spaced out -> trim l <> [] -> spaced (out ++ [l]).
Proof.
  intros Hsp Hl i Hi. apply blankAt_snoc_inv in Hi as [Hi | [_ Hb]]; [|done].
  destruct (Hsp i Hi) as (j & -> & Hj). exists j. split; [done|].
  by apply nonBlankAt_snoc.
Qed.

Lemma spaced_snoc_after_nonblank (out : list jsstring) l :
  spaced out -> Spec.prevEmitted out <> [] -> spaced (out ++ [l]).
Proof.
  intros Hsp Hprev i Hi. apply blankAt_snoc_inv in Hi as [Hi | [-> _]].
  - destruct (Hsp i Hi) as (j & -> & Hj). exists j. split; [done|].
    by apply nonBlankAt_snoc.
  - unfold Spec.prevEmitted in Hprev.
    destruct out as [|p out _] using rev_ind; [done|].
    rewrite last_snoc in Hprev.
    exists (length out). split; [rewrite length_app; simpl; lia|].
    apply nonBlankAt_snoc. exists p. split; [|done].
    by rewrite list_lookup_middle.
Qed.

Lemma normalizeFrom_spaced (rest out : list jsstring) :
  spaced out -> spaced (Spec.normalizeFrom out rest).
Proof.
  revert out. induction rest as [|l rest IH]; intros out Hsp; simpl; [done|].
  unfold Spec.isBlankLine. destruct (isEmpty (trim l)) eqn:Hl.
  - destruct (Spec.emits _) eqn:He; [|by apply IH].
    apply IH, spaced_snoc_after_nonblank; [done|].
    by eapply emits_prev_nonempty.
  - apply IH, spaced_snoc_nonblank; [done|]. by apply isEmpty_false.
Qed.

Lemma spaced_nil : spaced [].
Proof. intros i (x & Hx & _). by rewrite lookup_nil in Hx. Qed.

Lemma smartCleanBlankLines_spaced lines : spaced (smartCleanBlankLines lines).
Proof.
  rewrite smartCleanBlankLines_normalize. apply normalizeFrom_spaced, spaced_nil.
Qed.

Lemma emits_prev_not_opener prev next :
  Spec.emits (Spec.blankVerdict prev next) = true ->
  Spec.endsWithOpener prev = false.
Proof. unfold Spec.blankVerdict. by destruct (Spec.endsWithOpener prev). Qed.

Lemma prevEmitted_snoc (out : list jsstring) p :
  Spec.prevEmitted (out ++ [p]) = trim p.
Proof. unfold Spec.prevEmitted. by rewrite last_snoc. Qed.

Lemma noBlankAfterOpener_snoc (out : list jsstring) l :
  noBlankAfterOpener out ->
  (trim l = [] -> Spec.endsWithOpener (Spec.prevEmitted out) = false) ->
  noBlankAfterOpener (out ++ [l]).
Proof.
  intros Hno Hl i p Hp Hb. apply blankAt_snoc_inv in Hb as [Hb | [Hi Hblank]].
  - apply (Hno i); [|done].
    destruct Hb as (x & Hx & _). apply lookup_lt_Some in Hx.
    by rewrite lookup_app_l in Hp by lia.
  - specialize (Hl Hblank).
    destruct out as [|q out _] using rev_ind; [done|].
    rewrite prevEmitted_snoc in Hl. rewrite length_app in Hi. simpl in Hi.
    assert (i = length out) as -> by lia.
    rewrite lookup_app_l in Hp by (rewrite length_app; simpl; lia).
    rewrite list_lookup_middle in Hp by done.
    by injection Hp as <-.
Qed.

Lemma normalizeFrom_noBlankAfterOpener (rest out : list jsstring) :
  noBlankAfterOpener out -> noBlankAfterOpener (Spec.normalizeFrom out rest).
Proof.
  revert out. induction rest as [|l rest IH]; intros out Hno; simpl; [done|].
  unfold Spec.isBlankLine. destruct (isEmpty (trim l)) eqn:Hl.
  - destruct (Spec.emits _) eqn:He; [|by apply IH].
    apply IH, noBlankAfterOpener_snoc; [done|]. intros _.
    by eapply emits_prev_not_opener.
  - apply IH, noBlankAfterOpener_snoc; [done|].
    intros Hb. apply isEmpty_false in Hl. done.
Qed.

(** Opener suppression: no blank output line directly follows a line
    ending with an opening bracket. *)
Lemma smartCleanBlankLines_noBlankAfterOpener lines :
  noBlankAfterOpener (smartCleanBlankLines lines).
Proof.
  rewrite smartCleanBlankLines_normalize.
  apply normalizeFrom_noBlankAfterOpener.
  intros i p Hp. by rewrite lookup_nil in Hp.
Qed.

(** A sequence in which every blank line already satisfies the three rules
    is left as it is. *)
Lemma normalizeFrom_fixpoint (rest out : list jsstring) :
  spaced (out ++ rest) ->
  noBlankAfterOpener (out ++ rest) ->
  noBlankBeforeCloser (out ++ rest) ->
  Spec.normalizeFrom out rest = out ++ rest.
Proof.
  revert out. induction rest as [|l rest IH]; intros out Hsp Hop Hcl; simpl.
  { by rewrite app_nil_r. }
  assert (Hpush : Spec.normalizeFrom (out ++ [l]) rest = out ++ l :: rest).
  { rewrite (cons_middle l out rest), app_assoc in Hsp, Hop, Hcl |- *.
    by apply IH. }
  unfold Spec.isBlankLine. destruct (isEmpty (trim l)) eqn:Hl; [|done].
  apply isEmpty_true in Hl.
  assert (Hb : blankAt (out ++ l :: rest) (length out)).
  { exists l. by rewrite list_lookup_middle. }
  destruct (Hsp _ Hb) as (j & Hj & (x & Hx & Hnb)).
  destruct out as [|p out _] using rev_ind; [done|].
  rewrite length_app in Hj. simpl in Hj. assert (j = length out) as -> by lia.
  rewrite lookup_app_l in Hx by (rewrite length_app; simpl; lia).
  rewrite list_lookup_middle in Hx by done.
  injection Hx as <-.
  assert (Hno : Spec.endsWithOpener (trim p) = false).
  { apply (Hop (length out)); [|by replace (S (length out))
      with (length (out ++ [p])) by (rewrite length_app; simpl; lia)].
    rewrite lookup_app_l by (rewrite length_app; simpl; lia).
    by rewrite list_lookup_middle. }
  assert (Hnc : Spec.startsWithCloser (Spec.nextInput rest) = false).
  { destruct rest as [|n rest]; [done|]. simpl.
    apply (Hcl (length (out ++ [p]))); [done|].
    rewrite (cons_middle l (out ++ [p]) (n :: rest)), app_assoc.
    replace (S (length (out ++ [p]))) with (length ((out ++ [p]) ++ [l]))
      by (rewrite !length_app; simpl; lia).
    by rewrite list_lookup_middle. }
  rewrite prevEmitted_snoc. unfold Spec.blankVerdict. rewrite Hno, Hnc.
  destruct (trim p); [done|]. exact Hpush.
Qed.

(** A blank line directly before a closer is dropped, so the result is
    strictly shorter. *)
Lemma normalizeFrom_shrinks (rest out : list jsstring) i y :
  blankAt rest i -> rest !! S i = Some y ->
  Spec.startsWithCloser (trim y) = true ->
  length (Spec.normalizeFrom out rest) < length out + length rest.
Proof.
  revert out i. induction rest as [|l rest IH]; intros out i Hb Hy Hc.
  { by rewrite lookup_nil in Hy. }
  assert (Hany : forall out', length (Spec.normalizeFrom out' rest)
                              <= length out' + length rest).
  { intros out'. destruct (normalizeFrom_kept rest out') as (k & -> & Hk).
    apply sublist_length in Hk. rewrite length_app. lia. }
  simpl. destruct i as [|i].
  - destruct Hb as (x & [= <-] & Hl). simpl in Hy.
    destruct rest as [|n rest]; [done|]. injection Hy as ->.
    unfold Spec.isBlankLine. rewrite Hl. cbn [isEmpty Spec.nextInput].
    unfold Spec.blankVerdict. rewrite Hc.
    specialize (Hany out). simpl in Hany.
    destruct (Spec.endsWithOpener _); simpl; lia.
  - assert (Hb' : blankAt rest i) by (destruct Hb as (x & Hx & ?); by exists x).
    pose proof (IH out i Hb' Hy Hc).
    pose proof (IH (out ++ [l]) i Hb' Hy Hc) as Hpush.
    rewrite length_app in Hpush. simpl in Hpush.
    destruct (Spec.isBlankLine l); [|lia].
    destruct (Spec.emits _); lia.
Qed.

(** X4. A second pass changes the output of the first exactly when the first
    left a blank line directly before a closing bracket. *)
Lemma second_pass_fixpoint_iff lines :
  smartCleanBlankLines (smartCleanBlankLines lines) = smartCleanBlankLines lines
  <-> noBlankBeforeCloser (smartCleanBlankLines lines).
Proof.
  split.
  - intros Heq i y Hb Hy.
    destruct (Spec.startsWithCloser (trim y)) eqn:Hc; [exfalso|done].
    rewrite (smartCleanBlankLines_normalize (smartCleanBlankLines lines)) in Heq.
    pose proof (normalizeFrom_shrinks _ [] i y Hb Hy Hc) as Hlt.
    unfold Spec.normalize in Heq. rewrite Heq in Hlt. simpl in Hlt. lia.
  - intros Hcl.
    rewrite (smartCleanBlankLines_normalize (smartCleanBlankLines lines)).
    apply (normalizeFrom_fixpoint _ []); simpl.
    + apply smartCleanBlankLines_spaced.
    + apply smartCleanBlankLines_noBlankAfterOpener.
    + exact Hcl.
Qed.

Lemma smartCleanBlankLines_sublist_of lines :
  smartCleanBlankLines lines `sublist_of` lines.
Proof.
  rewrite smartCleanBlankLines_normalize. unfold Spec.normalize.
  by destruct (normalizeFrom_kept lines []) as (k & -> & Hk).
Qed.

(** ** The blank-line normalizer: claims *)

(** C1. Idempotence of [smartCleanBlankLines] fails on the code: on
    [["a"; ""; ""; ")"]] the first pass keeps the first blank line (its next
    input line is blank, not a closer) and returns [["a"; ""; ")"]]; the second
    pass finds that blank directly before [")"] and removes it. *)
Theorem smartCleanBlankLines_second_pass_differs :
  smartCleanBlankLines blankRunBeforeCloser = [str "a"; str ""; str ")"]
  /\ smartCleanBlankLines (smartCleanBlankLines blankRunBeforeCloser)
     = [str "a"; str ")"]
  /\ ~ (forall L, smartCleanBlankLines (smartCleanBlankLines L)
                  = smartCleanBlankLines L).
Proof.
  split; [reflexivity|]. split; [reflexivity|].
  intros H. specialize (H blankRunBeforeCloser). vm_compute in H. discriminate H.
Qed.

(** C2. Closer suppression fails on the code: the output for
    [["a"; ""; ""; ")"]] has the blank line at index 1 directly before the
    line [")"] at index 2, so it is not true of every input that no blank
    output line is followed by a line starting with a closing bracket. *)
Theorem blank_survives_before_closer :
  blankAt (smartCleanBlankLines blankRunBeforeCloser) 1
  /\ smartCleanBlankLines blankRunBeforeCloser !! 2 = Some (str ")")
  /\ isCloser (trim (str ")")) = true
  /\ ~ (forall L i y, blankAt (smartCleanBlankLines L) i ->
          smartCleanBlankLines L !! S i = Some y -> isCloser (trim y) = false).
Proof.
  assert (Hb : blankAt (smartCleanBlankLines blankRunBeforeCloser) 1)
    by (exists []; split; reflexivity).
  split; [done|]. split; [reflexivity|]. split; [reflexivity|].
  intros H. specialize (H blankRunBeforeCloser 1 (str ")") Hb eq_refl).
  vm_compute in H. discriminate H.
Qed.

Lemma cleanStep_at (lines result : list jsstring) i :
  i < length lines ->
  cleanStep lines result i
  = if Spec.isBlankLine (at_ lines i)
    then if Spec.emits (Spec.blankVerdict (Spec.prevEmitted result)
                          (Spec.nextInput (drop (S i) lines)))
         then result ++ [at_ lines i] else result
    else result ++ [at_ lines i].
Proof.
  intros Hi. destruct (lookup_lt_is_Some_2 lines i Hi) as [l Hl].
  assert (at_ lines i = l) as -> by exact (f_equal (default []) Hl).
  pose proof (cleanStep_spec (take i lines) l (drop (S i) lines) result) as H.
  rewrite take_drop_middle in H by done.
  by rewrite length_take, Nat.min_l in H by lia.
Qed.

(** C3. For a blank input line the loop body of [smartCleanBlankLines]
    decides as the specification's cascade does: opener check on the last
    emitted line, then closer check on the next input line, then run
    collapse (the last emitted line, taken as the empty string when nothing
    was emitted yet, is blank); it leaves the output as it is if a check
    fires and appends the line unchanged otherwise; a line that is not blank
    is appended. The whole function is the specification's one pass, and a
    blank line with an opener before it and a closer after it is decided by
    the opener check and leaves the output unchanged. *)
Theorem blank_line_precedence :
  (forall lines, smartCleanBlankLines lines = Spec.normalize lines)
  /\ (forall lines result i, i < length lines ->
        cleanStep lines result i
        = if Spec.isBlankLine (at_ lines i)
          then match Spec.blankVerdict (Spec.prevEmitted result)
                       (Spec.nextInput (drop (S i) lines)) with
               | Spec.Emit => result ++ [at_ lines i]
               | _ => result
               end
          else result ++ [at_ lines i])
  /\ (forall lines result i, i < length lines ->
        Spec.isBlankLine (at_ lines i) = true ->
        Spec.endsWithOpener (Spec.prevEmitted result) = true ->
        Spec.startsWithCloser (Spec.nextInput (drop (S i) lines)) = true ->
        Spec.blankVerdict (Spec.prevEmitted result)
          (Spec.nextInput (drop (S i) lines)) = Spec.SuppressOpener
        /\ cleanStep lines result i = result).
Proof.
  split; [apply smartCleanBlankLines_normalize|]. split.
  - intros lines result i Hi. rewrite cleanStep_at by done.
    destruct (Spec.isBlankLine _); [|done]. by destruct (Spec.blankVerdict _ _).
  - intros lines result i Hi Hb Ho Hc.
    rewrite cleanStep_at, Hb by done.
    unfold Spec.blankVerdict. by rewrite Ho.
Qed.

Lemma blank_line_precedence_witness :
  let lines := [str "foo("; str ""; str ")"] in
  let result := [str "foo("] in
  (1 < length lines
   /\ Spec.isBlankLine (at_ lines 1) = true
   /\ Spec.endsWithOpener (Spec.prevEmitted result) = true
   /\ Spec.startsWithCloser (Spec.nextInput (drop 2 lines)) = true)
  /\ Spec.blankVerdict (Spec.prevEmitted result) (Spec.nextInput (drop 2 lines))
     = Spec.SuppressOpener
  /\ cleanStep lines result 1 = result.
Proof.
  intros lines result.
  assert (H1 : 1 < length lines) by (simpl; lia).
  assert (H2 : Spec.isBlankLine (at_ lines 1) = true) by reflexivity.
  assert (H3 : Spec.endsWithOpener (Spec.prevEmitted result) = true) by reflexivity.
  assert (H4 : Spec.startsWithCloser (Spec.nextInput (drop 2 lines)) = true)
    by reflexivity.
  split; [done|].
  exact (proj2 (proj2 blank_line_precedence) lines result 1 H1 H2 H3 H4).
Defined.

(** C8. [smartCleanBlankLines] is a total function whose output is a
    subsequence of its input (the same lines, verbatim, in the same order),
    hence no longer than the input, and the empty sequence maps to the empty
    sequence. *)
Theorem smartCleanBlankLines_total_subsequence :
  (forall lines, smartCleanBlankLines lines `sublist_of` lines)
  /\ (forall lines, length (smartCleanBlankLines lines) <= length lines)
  /\ smartCleanBlankLines [] = [].
Proof.
  split; [apply smartCleanBlankLines_sublist_of|]. split; [|done].
  intros lines. apply sublist_length, smartCleanBlankLines_sublist_of.
Qed.

(** C9. The output of [smartCleanBlankLines] never has two blank lines in a
    row: every blank output line is the first output line or comes directly
    after an output line that is not blank. *)
Theorem no_consecutive_blank_output (lines : list jsstring) :
  (forall i, ~ (blankAt (smartCleanBlankLines lines) i
                /\ blankAt (smartCleanBlankLines lines) (S i)))
  /\ (forall i, blankAt (smartCleanBlankLines lines) i ->
        i = 0 \/ nonBlankAt (smartCleanBlankLines lines) (i - 1)).
Proof.
  pose proof (smartCleanBlankLines_spaced lines) as Hsp. split.
  - intros i [(x & Hx & Hbx) Hy].
    destruct (Hsp _ Hy) as (j & [= <-] & (p & Hp & Hnb)). congruence.
  - intros i Hi. destruct (Hsp _ Hi) as (j & -> & Hj). right.
    by replace (S j - 1) with j by lia.
Qed.

Lemma no_consecutive_blank_output_witness :
  let out := smartCleanBlankLines [str "foo"; str ""; str ""; str "bar"] in
  blankAt out 1 /\ (1 = 0 \/ nonBlankAt out (1 - 1)).
Proof.
  intros out.
  assert (Hb : blankAt out 1) by (exists []; split; reflexivity).
  split; [exact Hb|].
  exact (proj2 (no_consecutive_blank_output _) 1 Hb).
Defined.

(** A blank line is never the first line of the output. *)
Lemma first_output_line_not_blank lines :
  ~ blankAt (smartCleanBlankLines lines) 0.
Proof.
  intros H. by destruct (smartCleanBlankLines_spaced lines _ H) as (j & ? & _).
Qed.

(** The closer rule as the loop applies it: a blank input line whose next
    input line starts with a closing bracket is not appended. *)
Lemma cleanStep_blank_before_closer (lines result : list jsstring) i :
  S i < length lines ->
  Spec.isBlankLine (at_ lines i) = true ->
  isCloser (trim (at_ lines (S i))) = true ->
  cleanStep lines result i = result.
Proof.
  intros Hi Hb Hc. rewrite cleanStep_at, Hb by lia.
  destruct (lookup_lt_is_Some_2 lines (S i) Hi) as [n Hn].
  assert (at_ lines (S i) = n) as Hat by exact (f_equal (default []) Hn).
  rewrite Hat in Hc. rewrite (drop_S _ _ _ Hn). cbn [Spec.nextInput].
  unfold Spec.blankVerdict. rewrite <- isCloser_spec, Hc.
  by destruct (Spec.endsWithOpener _).
Qed.

(** Scenarios A, B and C of the specification. *)
Example scenario_A :
  smartCleanBlankLines [str "foo("; str ""; str "bar"] = [str "foo("; str "bar"].
Proof. reflexivity. Qed.

Example scenario_B :
  smartCleanBlankLines [str "foo"; str ""; str ""; str "bar"]
  = [str "foo"; str ""; str "bar"].
Proof. reflexivity. Qed.

Example scenario_C :
  smartCleanBlankLines [str "foo"; str ""; str ")"] = [str "foo"; str ")"].
Proof. reflexivity. Qed.

(** C6. Scenario D: [cleanTrailingWhitespace] of
    ["line1   \nline2\t\n"] is ["line1\nline2\n"]: the trailing whitespace of
    each line is gone and the empty last line that the final newline
    produces is kept. *)
Theorem cleanTrailingWhitespace_scenario_D :
  cleanTrailingWhitespace
    (str "line1   " ++ [LF] ++ str "line2" ++ [9%N] ++ [LF])
  = str "line1" ++ [LF] ++ str "line2" ++ [LF]
  /\ map trimEnd (split LF (str "line1   " ++ [LF] ++ str "line2" ++ [9%N] ++ [LF]))
     = [str "line1"; str "line2"; str ""]
  /\ smartCleanBlankLines [str "line1"; str "line2"; str ""]
     = [str "line1"; str "line2"; str ""].
Proof. repeat split; reflexivity. Qed.

(** ** [split] and [join] *)

Lemma split_nonempty sep s : split sep s <> [].
Proof.
  destruct s as [|c s]; simpl; [done|].
  destruct (N.eqb c sep); [done|]. by destruct (split sep s).
Qed.

Lemma split_no_sep sep s : Forall (fun l => sep ∉ l) (split sep s).
Proof.
  induction s as [|c s IH]; simpl.
  - constructor; [|constructor]. apply not_elem_of_nil.
  - destruct (N.eqb_spec c sep) as [->|Hne].
    + constructor; [apply not_elem_of_nil | done].
    + destruct (split sep s) as [|h t] eqn:E; [by apply split_nonempty in E|].
      inversion IH as [|? ? Hh Ht]; subst. constructor; [|done].
      rewrite elem_of_cons. intros [->|?]; done.
Qed.

Lemma split_without_sep sep s : sep ∉ s -> split sep s = [s].
Proof.
  induction s as [|c s IH]; intros Hs; simpl; [done|].
  apply not_elem_of_cons in Hs as [Hc Hs].
  destruct (N.eqb_spec c sep) as [->|_]; [done|]. by rewrite IH.
Qed.

Lemma split_with_sep sep s : sep ∈ s -> 2 <= length (split sep s).
Proof.
  induction s as [|c s IH]; intros Hs; [by apply elem_of_nil in Hs|]. simpl.
  destruct (N.eqb_spec c sep) as [->|Hne].
  - pose proof (split_nonempty sep s). destruct (split sep s); [done|]. simpl. lia.
  - apply elem_of_cons in Hs as [->|Hs]; [done|].
    specialize (IH Hs). destruct (split sep s); simpl in *; lia.
Qed.

Lemma split_short_iff sep s : length (split sep s) < 2 <-> sep ∉ s.
Proof.
  split.
  - intros Hlen Hs. apply (split_with_sep sep) in Hs. lia.
  - intros Hs. rewrite split_without_sep by done. simpl. lia.
Qed.

Lemma split_app_sep sep x t :
  sep ∉ x -> split sep (x ++ sep :: t) = x :: split sep t.
Proof.
  induction x as [|c x IH]; intros Hx; simpl.
  - by rewrite N.eqb_refl.
  - apply not_elem_of_cons in Hx as [Hc Hx].
    destruct (N.eqb_spec c sep) as [->|_]; [done|]. by rewrite IH.
Qed.

Lemma split_join sep (a : list jsstring) :
  a <> [] -> Forall (fun l => sep ∉ l) a -> split sep (join sep a) = a.
Proof.
  induction a as [|x a IH]; intros Hne Ha; [done|].
  inversion Ha as [|? ? Hx Ha']; subst.
  destruct a as [|y a].
  - simpl. by apply split_without_sep.
  - change (join sep (x :: y :: a)) with (x ++ sep :: join sep (y :: a)).
    rewrite split_app_sep by done. f_equal. by apply IH.
Qed.

Lemma trimEnd_elem_of c s : c ∈ trimEnd s -> c ∈ s.
Proof.
  induction s as [|d s IH]; simpl; [done|].
  destruct (trimEnd s) as [|e r].
  - destruct (isWhiteSpace d); [by intros ?%elem_of_nil|].
    intros H. apply list_elem_of_singleton in H as ->. apply elem_of_cons. by left.
  - intros H. apply elem_of_cons in H as [->|H]; apply elem_of_cons;
      [by left | right; by apply IH].
Qed.

Lemma sublist_no_sep sep (k l : list jsstring) :
  k `sublist_of` l -> Forall (fun x => sep ∉ x) l -> Forall (fun x => sep ∉ x) k.
Proof.
  induction 1 as [|x k l _ IH|x k l _ IH]; intros Hl; [done|..];
    inversion Hl; subst; [constructor|]; auto.
Qed.

Lemma map_trimEnd_no_sep sep (l : list jsstring) :
  Forall (fun x => sep ∉ x) l -> Forall (fun x => sep ∉ x) (map trimEnd l).
Proof.
  induction 1 as [|x l Hx _ IH]; simpl; constructor; [|done].
  intros H. by apply Hx, trimEnd_elem_of.
Qed.

(** ** [slice] *)

Lemma slice_interior {A} (f : A) mid l :
  slice (f :: mid ++ [l]) 1 (Z.of_nat (length (f :: mid ++ [l])) - 1) = mid.
Proof.
  unfold slice. simpl length. rewrite length_app. simpl length.
  destruct (Z.ltb_spec 1 0); [lia|].
  destruct (Z.ltb_spec (Z.of_nat (S (length mid + 1)) - 1) 0); [lia|].
  rewrite Z.min_l by lia. rewrite Z.min_l by lia.
  replace (Z.to_nat 1) with 1 by lia.
  replace (Z.to_nat (Z.of_nat (S (length mid + 1)) - 1 - 1)) with (length mid) by lia.
  change (drop 1 (f :: mid ++ [l])) with (mid ++ [l]). apply take_app_length.
Qed.

Lemma slice_block {A} (a : list A) (s e : nat) :
  s <= e < length a ->
  slice a (Z.of_nat s) (Z.of_nat e + 1) = take (S e - s) (drop s a).
Proof.
  intros H. unfold slice.
  destruct (Z.ltb_spec (Z.of_nat s) 0); [lia|].
  destruct (Z.ltb_spec (Z.of_nat e + 1) 0); [lia|].
  rewrite !Z.min_l by lia. f_equal; [lia | f_equal; lia].
Qed.

Lemma two_lines_shape {A} (a : list A) :
  2 <= length a -> exists f mid l, a = f :: mid ++ [l].
Proof.
  intros Hlen. destruct a as [|f a]; [simpl in Hlen; lia|].
  destruct a as [|l a _] using rev_ind; [simpl in Hlen; lia|].
  by exists f, a, l.
Qed.

(** ** [cleanCodeBlock] *)

Lemma cleanCodeBlock_lines content f mid l :
  split LF content = f :: mid ++ [l] ->
  split LF (cleanCodeBlock content)
  = f :: smartCleanBlankLines (map trimEnd mid) ++ [l].
Proof.
  intros Hs. unfold cleanCodeBlock. rewrite Hs.
  destruct (Nat.ltb_spec (length (f :: mid ++ [l])) 2) as [Hlen|_].
  { simpl in Hlen. rewrite length_app in Hlen. simpl in Hlen. lia. }
  rewrite slice_interior.
  replace (at_ (f :: mid ++ [l]) 0) with f by done.
  replace (at_ (f :: mid ++ [l]) (length (f :: mid ++ [l]) - 1)) with l.
  2:{ replace (length (f :: mid ++ [l]) - 1) with (length (f :: mid))
        by (simpl; rewrite length_app; simpl; lia).
      symmetry. apply (at_middle (f :: mid) l []). }
  pose proof (split_no_sep LF content) as Hno. rewrite Hs in Hno.
  inversion Hno as [|? ? Hf Hrest]; subst.
  apply Forall_app in Hrest as [Hmid Hl].
  apply split_join; [done|].
  constructor; [done|]. apply Forall_app. split; [|done].
  apply (sublist_no_sep LF _ (map trimEnd mid)); [|by apply map_trimEnd_no_sep].
  apply smartCleanBlankLines_sublist_of.
Qed.

(** C5. For a block text of at least two lines, the first and the last
    line of [cleanCodeBlock]'s result are the first and the last line of the
    input; the lines between them are the normalized interior. *)
Theorem cleanCodeBlock_preserves_fences (blockText : jsstring) :
  2 <= length (split LF blockText) ->
  head (split LF (cleanCodeBlock blockText)) = head (split LF blockText)
  /\ last (split LF (cleanCodeBlock blockText)) = last (split LF blockText)
  /\ exists f mid l,
       split LF blockText = f :: mid ++ [l]
       /\ split LF (cleanCodeBlock blockText)
          = f :: smartCleanBlankLines (map trimEnd mid) ++ [l].
Proof.
  intros Hlen. destruct (two_lines_shape _ Hlen) as (f & mid & l & Hs).
  pose proof (cleanCodeBlock_lines _ _ _ _ Hs) as Hc.
  rewrite Hc, Hs. split; [done|]. split.
  - by rewrite !last_cons, !last_snoc.
  - by exists f, mid, l.
Qed.

Lemma cleanCodeBlock_preserves_fences_witness :
  let blockText :=
    str "```js  " ++ [LF] ++ str "code(  " ++ [LF] ++ [LF] ++ str ")" ++ [LF]
    ++ str " ``` " in
  2 <= length (split LF blockText)
  /\ head (split LF (cleanCodeBlock blockText)) = Some (str "```js  ")
  /\ last (split LF (cleanCodeBlock blockText)) = Some (str " ``` ").
Proof.
  intros blockText.
  assert (H : 2 <= length (split LF blockText)) by (vm_compute; lia).
  split; [exact H|].
  destruct (cleanCodeBlock_preserves_fences blockText H) as (Hh & Hl & _).
  split; [exact Hh | exact Hl].
Defined.

(** C7. A block text that splits into fewer than two lines, that is, one
    without a newline, is returned unchanged by [cleanCodeBlock]. *)
Theorem cleanCodeBlock_short_unchanged (blockText : jsstring) :
  (length (split LF blockText) < 2 <-> LF ∉ blockText)
  /\ (length (split LF blockText) < 2 -> cleanCodeBlock blockText = blockText).
Proof.
  split; [apply split_short_iff|].
  intros Hlen. unfold cleanCodeBlock.
  by destruct (Nat.ltb_spec (length (split LF blockText)) 2); [|lia].
Qed.

Lemma cleanCodeBlock_short_unchanged_witness :
  length (split LF (str "```js   ")) < 2
  /\ cleanCodeBlock (str "```js   ") = str "```js   ".
Proof.
  assert (H : length (split LF (str "```js   ")) < 2) by (vm_compute; lia).
  split; [exact H|].
  exact (proj2 (cleanCodeBlock_short_unchanged (str "```js   ")) H).
Defined.

(** ** [getCodeBlockAtCursor] against the specification's scan *)

Lemma scanLines_locate (c : Z) (rest pre : list jsstring) inCB start opened :
  scanState (length pre) inCB start opened ->
  scanLines (pre ++ rest) c (seq (length pre) (length rest)) inCB start
  = match List.find (Spec.encloses c) (Spec.pairFences rest (length pre) opened) with
    | Some p => Some (Spec.blockSpan (pre ++ rest) p.1 p.2)
    | None => None
    end.
Proof.
  revert pre inCB start opened.
  induction rest as [|l rest IH]; intros pre inCB start opened Hst; [done|].
  cbn [length seq scanLines Spec.pairFences].
  rewrite at_middle. unfold Spec.isFenceLine.
  assert (Hnext : forall inCB' start' opened',
    scanState (S (length pre)) inCB' start' opened' ->
    scanLines (pre ++ l :: rest) c (seq (S (length pre)) (length rest)) inCB' start'
    = match List.find (Spec.encloses c)
              (Spec.pairFences rest (S (length pre)) opened') with
      | Some p => Some (Spec.blockSpan (pre ++ l :: rest) p.1 p.2)
      | None => None
      end).
  { intros inCB' start' opened' Hst'.
    replace (pre ++ l :: rest) with ((pre ++ [l]) ++ rest) by by rewrite <- app_assoc.
    replace (S (length pre)) with (length (pre ++ [l]))
      by (rewrite length_app; simpl; lia).
    apply IH. by rewrite length_app, Nat.add_1_r. }
  destruct (startsWith fence (trimStart l)) eqn:Hf.
  - destruct opened as [s|]; simpl in Hst.
    + destruct Hst as (-> & -> & Hs). cbn [negb andb List.find].
      unfold Spec.encloses at 1. cbn [fst snd].
      destruct (_ && _) eqn:Hin.
      * unfold Spec.blockSpan. rewrite Nat2Z.id. cbn [fst snd].
        rewrite slice_block; [done|]. rewrite length_app. simpl. lia.
      * by apply Hnext.
    + subst inCB. cbn [negb andb]. apply Hnext. simpl. split; [done|]. lia.
  - rewrite !andb_false_r. apply Hnext.
    destruct opened as [s|]; simpl in *; [|done].
    destruct Hst as (? & ? & ?). repeat split; [done..|lia].
Qed.

Lemma getCodeBlockAtCursor_locate editor :
  getCodeBlockAtCursor editor
  = Spec.locate (split LF (getValue editor)) (line (getCursor editor)).
Proof.
  unfold getCodeBlockAtCursor, Spec.locate, Spec.fencePairs.
  by apply (scanLines_locate _ (split LF (getValue editor)) [] false (-1)%Z None).
Qed.

(** Every pair of the scan is an opening fence line strictly before a
    closing fence line, and lies at or after the scan position, but for the
    block already open. *)
Lemma pairFences_sound (rest pre : list jsstring) opened s e :
  (forall s0, opened = Some s0 ->
     s0 < length pre /\ Spec.isFenceLine (at_ (pre ++ rest) s0) = true) ->
  (s, e) ∈ Spec.pairFences rest (length pre) opened ->
  s < e < length (pre ++ rest)
  /\ Spec.isFenceLine (at_ (pre ++ rest) s) = true
  /\ Spec.isFenceLine (at_ (pre ++ rest) e) = true
  /\ (opened = Some s \/ length pre <= s).
Proof.
  revert pre opened.
  induction rest as [|l rest IH]; intros pre opened Hop Hin;
    [by apply elem_of_nil in Hin|].
  cbn [Spec.pairFences] in Hin.
  assert (Hnext : forall opened',
    (forall s0, opened' = Some s0 ->
       s0 < S (length pre) /\ Spec.isFenceLine (at_ (pre ++ l :: rest) s0) = true) ->
    (s, e) ∈ Spec.pairFences rest (S (length pre)) opened' ->
    s < e < length (pre ++ l :: rest)
    /\ Spec.isFenceLine (at_ (pre ++ l :: rest) s) = true
    /\ Spec.isFenceLine (at_ (pre ++ l :: rest) e) = true
    /\ (opened' = Some s \/ S (length pre) <= s)).
  { intros opened' Hop' Hin'.
    replace (pre ++ l :: rest) with ((pre ++ [l]) ++ rest) in * by by rewrite <- app_assoc.
    replace (S (length pre)) with (length (pre ++ [l])) in *
      by (rewrite length_app; simpl; lia).
    by apply IH. }
  destruct (Spec.isFenceLine l) eqn:Hf.
  - destruct opened as [s0|].
    + destruct (Hop s0 eq_refl) as [Hs0 Hfs0].
      apply elem_of_cons in Hin as [[= -> ->]|Hin].
      * rewrite at_middle, length_app. simpl. repeat split; auto; lia.
      * assert (Hnone : forall s1, @None nat = Some s1 ->
          s1 < S (length pre)
          /\ Spec.isFenceLine (at_ (pre ++ l :: rest) s1) = true) by done.
        destruct (Hnext None Hnone Hin) as (? & ? & ? & [?|?]); [done|].
        repeat split; auto; lia.
    + assert (Hsome : forall s1, Some (length pre) = Some s1 ->
        s1 < S (length pre)
        /\ Spec.isFenceLine (at_ (pre ++ l :: rest) s1) = true).
      { intros s1 [= <-]. rewrite at_middle. split; [lia|done]. }
      destruct (Hnext _ Hsome Hin) as (? & ? & ? & [[= <-]|?]);
        repeat split; auto; lia.
  - assert (Hsame : forall s1, opened = Some s1 ->
      s1 < S (length pre)
      /\ Spec.isFenceLine (at_ (pre ++ l :: rest) s1) = true).
    { intros s1 Hs1. destruct (Hop s1 Hs1). split; [lia|done]. }
    destruct (Hnext _ Hsame Hin) as (? & ? & ? & [?|?]);
      repeat split; auto; lia.
Qed.

(** The pairs are disjoint and in document order, so the first pair that
    encloses the cursor line is the only one. *)
Lemma pairFences_find (c : Z) (rest pre : list jsstring) opened s e :
  (forall s0, opened = Some s0 ->
     s0 < length pre /\ Spec.isFenceLine (at_ (pre ++ rest) s0) = true) ->
  (s, e) ∈ Spec.pairFences rest (length pre) opened ->
  Spec.encloses c (s, e) = true ->
  List.find (Spec.encloses c) (Spec.pairFences rest (length pre) opened) = Some (s, e).
Proof.
  revert pre opened.
  induction rest as [|l rest IH]; intros pre opened Hop Hin Hc;
    [by apply elem_of_nil in Hin|].
  cbn [Spec.pairFences] in *.
  assert (Hnext : forall opened',
    (forall s0, opened' = Some s0 ->
       s0 < S (length pre) /\ Spec.isFenceLine (at_ (pre ++ l :: rest) s0) = true) ->
    (s, e) ∈ Spec.pairFences rest (S (length pre)) opened' ->
    List.find (Spec.encloses c) (Spec.pairFences rest (S (length pre)) opened')
    = Some (s, e)).
  { intros opened' Hop' Hin'.
    replace (pre ++ l :: rest) with ((pre ++ [l]) ++ rest) in * by by rewrite <- app_assoc.
    replace (S (length pre)) with (length (pre ++ [l])) in *
      by (rewrite length_app; simpl; lia).
    by apply IH. }
  destruct (Spec.isFenceLine l) eqn:Hf.
  - destruct opened as [s0|].
    + cbn [List.find].
      apply elem_of_cons in Hin as [[= -> ->]|Hin]; [by rewrite Hc|].
      destruct (Spec.encloses c (s0, length pre)) eqn:Hc0; [|by apply Hnext].
      exfalso.
      replace (S (length pre)) with (length (pre ++ [l])) in Hin
        by (rewrite length_app; simpl; lia).
      apply pairFences_sound in Hin as (_ & _ & _ & [?|Hs]); [done|..|done].
      rewrite length_app in Hs. simpl in Hs.
      unfold Spec.encloses in Hc, Hc0. simpl in Hc, Hc0. lia.
    + apply Hnext; [|done]. intros s0 [= <-]. rewrite at_middle. split; [lia|done].
  - apply Hnext; [|done].
    intros s0 Hs0. destruct (Hop s0 Hs0). split; [lia|done].
Qed.

Lemma find_none_of {A} (f : A -> bool) (l : list A) :
  (forall x, x ∈ l -> f x = false) -> List.find f l = None.
Proof.
  induction l as [|x l IH]; intros H; simpl; [done|].
  rewrite (H x) by (apply elem_of_cons; by left).
  apply IH. intros y Hy. apply H, elem_of_cons. by right.
Qed.

Lemma encloses_iff c s e :
  Spec.encloses c (s, e) = true <-> (Z.of_nat s <= c <= Z.of_nat e)%Z.
Proof. unfold Spec.encloses. simpl. lia. Qed.

(** C4. When the forward scan pairs an opening fence at line [s] with a
    closing fence at line [e] and the cursor line lies in [s..e],
    [getCodeBlockAtCursor] returns the span of that block, from line [s] to
    line [e]; when no pair of the scan encloses the cursor line (a block
    that is never closed makes no pair), it returns nothing. *)
Theorem locator_containment (editor : Editor) :
  let doc := split LF (getValue editor) in
  let cursorLine := line (getCursor editor) in
  (forall s e, (s, e) ∈ Spec.fencePairs doc ->
     (Z.of_nat s <= cursorLine <= Z.of_nat e)%Z ->
     exists b, getCodeBlockAtCursor editor = Some b
               /\ line (from b) = Z.of_nat s /\ line (to b) = Z.of_nat e
               /\ b = Spec.blockSpan doc s e)
  /\ ((forall s e, (s, e) ∈ Spec.fencePairs doc ->
         ~ (Z.of_nat s <= cursorLine <= Z.of_nat e)%Z) ->
      getCodeBlockAtCursor editor = None).
Proof.
  intros doc cursorLine. rewrite getCodeBlockAtCursor_locate.
  fold doc cursorLine. unfold Spec.locate. split.
  - intros s e Hin Hc. apply encloses_iff in Hc.
    unfold Spec.fencePairs in *.
    pose proof (pairFences_find cursorLine doc [] None s e) as Hfind.
    simpl in Hfind. rewrite Hfind; [|done..].
    by exists (Spec.blockSpan doc s e).
  - intros Hnone. rewrite find_none_of; [done|].
    intros [s e] Hin. specialize (Hnone s e Hin).
    rewrite <- encloses_iff in Hnone. by destruct (Spec.encloses _ _).
Qed.

(** C10. A span returned by [getCodeBlockAtCursor] is well formed: its
    first line is strictly before its last line, both are fence lines of the
    document, it starts at character 0 and ends at the length of its last
    line, and its content is the newline-join of the document lines from
    the first to the last, both included. *)
Theorem located_span_well_formed (editor : Editor) (b : CodeBlockInfo) :
  getCodeBlockAtCursor editor = Some b ->
  let doc := split LF (getValue editor) in
  exists s e : nat,
    line (from b) = Z.of_nat s /\ line (to b) = Z.of_nat e
    /\ (line (from b) < line (to b))%Z
    /\ e < length doc
    /\ startsWith fence (trimStart (at_ doc s)) = true
    /\ startsWith fence (trimStart (at_ doc e)) = true
    /\ ch (from b) = 0%Z
    /\ ch (to b) = Z.of_nat (length (at_ doc e))
    /\ content b = join LF (take (S e - s) (drop s doc)).
Proof.
  intros Hb doc. rewrite getCodeBlockAtCursor_locate in Hb.
  fold doc in Hb. unfold Spec.locate in Hb.
  destruct (List.find _ _) as [[s e]|] eqn:Hfind; [|done].
  injection Hb as <-.
  apply List.find_some in Hfind as [Hin _].
  apply list_elem_of_In in Hin.
  apply (pairFences_sound doc [] None s e) in Hin as ([Hse He] & Hs & Hfe & _);
    [|done].
  exists s, e. simpl. repeat split; try done. lia.
Qed.

Lemma scenarioE_pairs :
  Spec.fencePairs (split LF (getValue (scenarioE 2))) = [(1, 5)].
Proof. reflexivity. Qed.

Lemma locator_containment_witness :
  ((1, 5) ∈ Spec.fencePairs (split LF (getValue (scenarioE 2)))
   /\ (Z.of_nat 1 <= 2 <= Z.of_nat 5)%Z
   /\ exists b, getCodeBlockAtCursor (scenarioE 2) = Some b
                /\ line (from b) = Z.of_nat 1 /\ line (to b) = Z.of_nat 5
                /\ b = Spec.blockSpan (split LF (getValue (scenarioE 2))) 1 5)
  /\ ((forall s e, (s, e) ∈ Spec.fencePairs (split LF (getValue (scenarioE 6))) ->
         ~ (Z.of_nat s <= 6 <= Z.of_nat e)%Z)
      /\ getCodeBlockAtCursor (scenarioE 6) = None).
Proof.
  assert (Hin : (1, 5) ∈ Spec.fencePairs (split LF (getValue (scenarioE 2))))
    by (rewrite scenarioE_pairs; apply list_elem_of_singleton; reflexivity).
  assert (Hc : (Z.of_nat 1 <= 2 <= Z.of_nat 5)%Z) by lia.
  assert (Hout : forall s e,
            (s, e) ∈ Spec.fencePairs (split LF (getValue (scenarioE 6))) ->
            ~ (Z.of_nat s <= 6 <= Z.of_nat e)%Z).
  { intros s e H. change (getValue (scenarioE 6)) with (getValue (scenarioE 2)) in H.
    rewrite scenarioE_pairs in H. apply list_elem_of_singleton in H.
    injection H as -> ->. lia. }
  split.
  - split; [exact Hin|]. split; [exact Hc|].
    exact (proj1 (locator_containment (scenarioE 2)) 1 5 Hin Hc).
  - split; [exact Hout|].
    exact (proj2 (locator_containment (scenarioE 6)) Hout).
Defined.

Lemma located_span_well_formed_witness :
  let doc := split LF (getValue (scenarioE 2)) in
  getCodeBlockAtCursor (scenarioE 2) = Some (Spec.blockSpan doc 1 5)
  /\ exists s e : nat,
       Z.of_nat 1 = Z.of_nat s /\ Z.of_nat 5 = Z.of_nat e
       /\ (Z.of_nat 1 < Z.of_nat 5)%Z
       /\ e < length doc
       /\ startsWith fence (trimStart (at_ doc s)) = true
       /\ startsWith fence (trimStart (at_ doc e)) = true
       /\ 0%Z = 0%Z
       /\ Z.of_nat (length (at_ doc 5)) = Z.of_nat (length (at_ doc e))
       /\ join LF (take (S 5 - 1) (drop 1 doc)) = join LF (take (S e - s) (drop s doc)).
Proof.
  intros doc.
  assert (H : getCodeBlockAtCursor (scenarioE 2) = Some (Spec.blockSpan doc 1 5))
    by reflexivity.
  split; [exact H|].
  exact (located_span_well_formed (scenarioE 2) (Spec.blockSpan doc 1 5) H).
Defined.

(** Scenario E: cursor line 2 of the document is inside the block of lines
    1 to 5, whose text is those five lines joined by newlines. *)
Example scenario_E :
  getCodeBlockAtCursor (scenarioE 2)
  = Some {| from := {| line := 1; ch := 0 |};
            to := {| line := 5; ch := 3 |};
            content := join LF [str "```js"; str "code("; str ""; str ")"; str "```"] |}.
Proof. reflexivity. Qed.

(** A cursor inside a block that is opened and never closed finds nothing. *)
Example unterminated_block_not_found :
  Spec.fencePairs (split LF (getValue (unterminated 2))) = []
  /\ getCodeBlockAtCursor (unterminated 2) = None.
Proof. split; reflexivity. Qed.

(** * Further properties of the code *)

(** ** [smartCleanBlankLines]: what is kept *)

Lemma filter_nonBlank_normalizeFrom (rest out : list jsstring) :
  List.filter nonBlank (Spec.normalizeFrom out rest)
  = List.filter nonBlank out ++ List.filter nonBlank rest.
Proof.
  revert out. induction rest as [|l rest IH]; intros out; simpl.
  { by rewrite app_nil_r. }
  unfold Spec.isBlankLine, nonBlank at 3.
  destruct (isEmpty (trim l)) eqn:Hl; simpl.
  - destruct (Spec.emits _); rewrite IH; [|done].
    rewrite List.filter_app. simpl. unfold nonBlank at 2. rewrite Hl. simpl.
    by rewrite app_nil_r.
  - rewrite IH, List.filter_app. simpl. unfold nonBlank at 2. rewrite Hl. simpl.
    by rewrite <- app_assoc.
Qed.

(** X1. Only blank lines are ever removed: the lines that are not blank come
    out all, unchanged and in order. *)
Theorem smartCleanBlankLines_keeps_nonblank (lines : list jsstring) :
  List.filter nonBlank (smartCleanBlankLines lines) = List.filter nonBlank lines.
Proof.
  rewrite smartCleanBlankLines_normalize. unfold Spec.normalize.
  by rewrite filter_nonBlank_normalizeFrom.
Qed.

(** X2. Opener suppression holds of the output: no blank output line comes
    directly after a line that ends, once trimmed, with [(], [[] or [{]. *)
Theorem no_blank_after_opener_in_output (lines : list jsstring) i p :
  smartCleanBlankLines lines !! i = Some p ->
  blankAt (smartCleanBlankLines lines) (S i) ->
  isOpener (trim p) = false.
Proof.
  intros Hp Hb. rewrite isOpener_spec.
  by apply (smartCleanBlankLines_noBlankAfterOpener lines i p).
Qed.

Lemma no_blank_after_opener_in_output_witness :
  let lines := [str "x"; str ""; str "foo("; str ""; str "bar"] in
  (smartCleanBlankLines lines !! 0 = Some (str "x")
   /\ blankAt (smartCleanBlankLines lines) 1)
  /\ isOpener (trim (str "x")) = false.
Proof.
  intros lines.
  assert (Hp : smartCleanBlankLines lines !! 0 = Some (str "x")) by reflexivity.
  assert (Hb : blankAt (smartCleanBlankLines lines) 1)
    by (exists []; split; reflexivity).
  split; [by split|].
  exact (no_blank_after_opener_in_output lines 0 (str "x") Hp Hb).
Defined.

(** X3. Leading blank lines are always removed: with nothing emitted yet the
    last emitted line reads as the empty string, so the run-collapse check
    fires. *)
Theorem output_never_starts_blank (lines : list jsstring) x :
  head (smartCleanBlankLines lines) = Some x -> trim x <> [].
Proof.
  intros Hx Hb. apply (first_output_line_not_blank lines).
  exists x. by rewrite <- head_lookup.
Qed.

Lemma output_never_starts_blank_witness :
  head (smartCleanBlankLines [str ""; str "  "; str "a"; str ""]) = Some (str "a")
  /\ trim (str "a") <> [].
Proof.
  assert (H : head (smartCleanBlankLines [str ""; str "  "; str "a"; str ""])
              = Some (str "a")) by reflexivity.
  split; [exact H|]. exact (output_never_starts_blank _ _ H).
Defined.

(** ** [smartCleanBlankLines]: fixed points *)

Lemma noBlankBeforeCloser_snoc (out : list jsstring) l :
  noBlankBeforeCloser out ->
  (lastBlank out = true -> Spec.startsWithCloser (trim l) = false) ->
  noBlankBeforeCloser (out ++ [l]).
Proof.
  intros Hno Hl i y Hb Hy.
  apply lookup_app_Some in Hy as [Hy | [Hlen Hy]].
  - apply (Hno i); [|done]. destruct Hb as (x & Hx & Hbx). exists x.
    split; [|done]. apply lookup_lt_Some in Hy.
    by rewrite lookup_app_l in Hx by lia.
  - apply list_lookup_singleton_Some in Hy as [Hi ->].
    apply Hl. destruct Hb as (x & Hx & Hbx).
    destruct out as [|q out _] using rev_ind; [simpl in Hlen, Hi; lia|].
    rewrite length_app in Hlen, Hi. simpl in Hlen, Hi.
    assert (i = length out) as -> by lia.
    rewrite lookup_app_l in Hx by (rewrite length_app; simpl; lia).
    rewrite list_lookup_middle in Hx by done. injection Hx as <-.
    unfold lastBlank. by rewrite last_snoc, Hbx.
Qed.

Lemma lastBlank_snoc (out : list jsstring) l :
  lastBlank (out ++ [l]) = isEmpty (trim l).
Proof. unfold lastBlank. by rewrite last_snoc. Qed.

Lemma noConsecutiveBlank_tail l (rest : list jsstring) :
  noConsecutiveBlank (l :: rest) -> noConsecutiveBlank rest.
Proof. intros H i [Ha Hb]. by apply (H (S i)). Qed.

Lemma noConsecutiveBlank_head l n (rest : list jsstring) :
  noConsecutiveBlank (l :: n :: rest) -> trim l = [] -> trim n <> [].
Proof.
  intros H Hl Hn. apply (H 0). split; [by exists l | by exists n].
Qed.

(** On an input without two blank lines in a row, every kept blank line has
    its next input line as its next output line, so the closer check has
    looked at the right line. *)
Lemma normalizeFrom_closerFree (rest out : list jsstring) :
  noConsecutiveBlank rest ->
  noBlankBeforeCloser out ->
  (lastBlank out = true ->
     match rest with
     | [] => True
     | n :: _ => trim n <> [] /\ Spec.startsWithCloser (trim n) = false
     end) ->
  noBlankBeforeCloser (Spec.normalizeFrom out rest).
Proof.
  revert out. induction rest as [|l rest IH]; intros out Hcons Hno Hlast; [done|].
  pose proof (noConsecutiveBlank_tail _ _ Hcons) as Hcons'.
  simpl. unfold Spec.isBlankLine. destruct (isEmpty (trim l)) eqn:Hl.
  - apply isEmpty_true in Hl.
    destruct (Spec.emits _) eqn:He.
    + apply IH; [done|..].
      * apply noBlankBeforeCloser_snoc; [done|]. intros _. by rewrite Hl.
      * intros _. destruct rest as [|n rest]; [done|]. split.
        -- by apply (noConsecutiveBlank_head l n rest).
        -- by apply emits_next_not_closer in He.
    + apply IH; [done..|]. intros Hlb. by destruct (Hlast Hlb).
  - apply IH; [done|..].
    + apply noBlankBeforeCloser_snoc; [done|]. intros Hlb. by destruct (Hlast Hlb).
    + rewrite lastBlank_snoc, Hl. done.
Qed.

Lemma noBlankBeforeCloser_nil : noBlankBeforeCloser [].
Proof. intros i y (x & Hx & _). by rewrite lookup_nil in Hx. Qed.

Lemma spaced_noConsecutiveBlank (l : list jsstring) :
  spaced l -> noConsecutiveBlank l.
Proof.
  intros Hsp i [(x & Hx & Hbx) Hy].
  destruct (Hsp _ Hy) as (j & [= <-] & (p & Hp & Hnb)). congruence.
Qed.

Lemma closerFree_of_noConsecutiveBlank (lines : list jsstring) :
  noConsecutiveBlank lines -> noBlankBeforeCloser (smartCleanBlankLines lines).
Proof.
  intros Hcons. rewrite smartCleanBlankLines_normalize.
  apply normalizeFrom_closerFree; [done | apply noBlankBeforeCloser_nil | done].
Qed.

Lemma fixpoint_of_closerFree (lines : list jsstring) :
  noBlankBeforeCloser (smartCleanBlankLines lines) ->
  smartCleanBlankLines (smartCleanBlankLines lines) = smartCleanBlankLines lines.
Proof.
  intros Hcl.
  rewrite (smartCleanBlankLines_normalize (smartCleanBlankLines lines)).
  apply (normalizeFrom_fixpoint _ []); simpl.
  - apply smartCleanBlankLines_spaced.
  - apply smartCleanBlankLines_noBlankAfterOpener.
  - exact Hcl.
Qed.

(** X5. On an input that has no two blank lines in a row, one pass is enough:
    a second pass returns the output of the first. *)
Theorem idempotent_without_blank_runs (lines : list jsstring) :
  noConsecutiveBlank lines ->
  smartCleanBlankLines (smartCleanBlankLines lines) = smartCleanBlankLines lines.
Proof.
  intros Hcons. by apply fixpoint_of_closerFree, closerFree_of_noConsecutiveBlank.
Qed.

Lemma idempotent_without_blank_runs_witness :
  let lines := [str "f("; str ""; str "a"; str ""; str ")"; str ""; str "b"] in
  noConsecutiveBlank lines
  /\ smartCleanBlankLines (smartCleanBlankLines lines) = smartCleanBlankLines lines.
Proof.
  intros lines.
  assert (H : noConsecutiveBlank lines).
  { intros i [(x & Hx & Hbx) (y & Hy & Hby)].
    do 7 (destruct i as [|i]; [simpl in Hx, Hy; injection Hx as <-;
                                 try injection Hy as <-; discriminate|]).
    discriminate. }
  split; [exact H|]. exact (idempotent_without_blank_runs lines H).
Defined.

(** X6. Two passes always reach a fixed point: a third pass changes nothing. *)
Theorem third_pass_changes_nothing (lines : list jsstring) :
  smartCleanBlankLines (smartCleanBlankLines (smartCleanBlankLines lines))
  = smartCleanBlankLines (smartCleanBlankLines lines).
Proof.
  apply fixpoint_of_closerFree, closerFree_of_noConsecutiveBlank.
  apply spaced_noConsecutiveBlank, smartCleanBlankLines_spaced.
Qed.

Lemma normalize_without_blank (lines : list jsstring) :
  (forall i, ~ blankAt lines i) -> Spec.normalize lines = lines.
Proof.
  intros Hnone. apply (normalizeFrom_fixpoint lines []); simpl.
  - intros i Hi. by destruct (Hnone i).
  - intros i p _ Hi. by destruct (Hnone (S i)).
  - intros i y Hi. by destruct (Hnone i).
Qed.

(** X7. An input without blank lines is returned as it is. *)
Theorem no_blank_lines_unchanged (lines : list jsstring) :
  (forall l, l ∈ lines -> trim l <> []) ->
  smartCleanBlankLines lines = lines.
Proof.
  intros Hnb. rewrite smartCleanBlankLines_normalize.
  apply normalize_without_blank.
  intros i (x & Hx & Hbx). apply list_elem_of_lookup_2 in Hx. by apply (Hnb x).
Qed.

Lemma no_blank_lines_unchanged_witness :
  let lines := [str "if (x) {"; str "  y()"; str "}"] in
  (forall l, l ∈ lines -> trim l <> [])
  /\ smartCleanBlankLines lines = lines.
Proof.
  intros lines.
  assert (H : forall l, l ∈ lines -> trim l <> []).
  { intros l Hl. repeat (apply elem_of_cons in Hl as [->|Hl]; [discriminate|]).
    by apply elem_of_nil in Hl. }
  split; [exact H|]. exact (no_blank_lines_unchanged lines H).
Defined.

(** ** [trimEnd], [split] and [join] once more *)

Lemma trimEnd_idempotent s : trimEnd (trimEnd s) = trimEnd s.
Proof.
  induction s as [|c s IH]; [done|]. simpl.
  destruct (trimEnd s) as [|e r] eqn:E.
  - destruct (isWhiteSpace c) eqn:Hc; [done|]. simpl. by rewrite Hc.
  - change (trimEnd (c :: e :: r)) with
      (match trimEnd (e :: r) with
       | [] => if isWhiteSpace c then [] else [c]
       | r' => c :: r'
       end).
    by rewrite IH.
Qed.

Lemma trimEnd_noTrailingWhitespace s : noTrailingWhitespace (trimEnd s).
Proof.
  induction s as [|c s IH]; intros d; cbn [trimEnd]; [done|].
  destruct (trimEnd s) as [|e r].
  - destruct (isWhiteSpace c) eqn:Hc; cbn [last]; intros Hd;
      [discriminate Hd | by injection Hd as <-].
  - change (last (c :: e :: r)) with (last (e :: r)). apply IH.
Qed.

Lemma trimEnd_fixed s : noTrailingWhitespace s -> trimEnd s = s.
Proof.
  induction s as [|c s IH]; intros Hs; [done|]. simpl.
  destruct s as [|e r].
  - simpl. by rewrite (Hs c).
  - rewrite IH; [done|]. intros d Hd. by apply Hs.
Qed.

Lemma trim_trimEnd s : trim (trimEnd s) = trim s.
Proof. unfold trim. by rewrite trimEnd_idempotent. Qed.

Lemma nonBlank_trimEnd s : nonBlank (trimEnd s) = nonBlank s.
Proof. unfold nonBlank. by rewrite trim_trimEnd. Qed.

Lemma trimEnd_whitespace s :
  (forall c, c ∈ s -> isWhiteSpace c = true) -> trimEnd s = [].
Proof.
  induction s as [|c s IH]; intros Hs; [done|]. simpl.
  rewrite IH by (intros d Hd; apply Hs, elem_of_cons; by right).
  by rewrite Hs by (apply elem_of_cons; by left).
Qed.

Lemma join_split sep s : join sep (split sep s) = s.
Proof.
  induction s as [|c s IH]; [done|]. simpl.
  destruct (N.eqb_spec c sep) as [->|Hne].
  - pose proof (split_nonempty sep s) as Hn.
    destruct (split sep s) as [|h t]; [done|]. simpl in *. by rewrite IH.
  - destruct (split sep s) as [|h t] eqn:E; [by apply split_nonempty in E|].
    simpl in *. destruct t; by rewrite <- IH.
Qed.

Lemma split_elem_of sep s l c : l ∈ split sep s -> c ∈ l -> c ∈ s.
Proof.
  revert l. induction s as [|d s IH]; intros l Hl Hc; simpl in Hl.
  - apply list_elem_of_singleton in Hl as ->. done.
  - destruct (N.eqb_spec d sep) as [->|Hne].
    + apply elem_of_cons in Hl as [->|Hl]; [by apply elem_of_nil in Hc|].
      apply elem_of_cons. right. by apply (IH l).
    + destruct (split sep s) as [|h t] eqn:E; [by apply split_nonempty in E|].
      apply elem_of_cons in Hl as [->|Hl].
      * apply elem_of_cons in Hc as [->|Hc]; apply elem_of_cons; [by left|right].
        apply (IH h); [apply elem_of_cons; by left | done].
      * apply elem_of_cons. right. apply (IH l); [|done].
        apply elem_of_cons. by right.
Qed.

(** ** [cleanTrailingWhitespace] *)

Lemma trimmed_lines_no_LF text :
  Forall (fun l => LF ∉ l) (map trimEnd (split LF text)).
Proof. apply map_trimEnd_no_sep, split_no_sep. Qed.

(** The lines of the result: the normalized lines, or the one empty line
    of the empty string when nothing is kept. *)
Lemma cleanTrailingWhitespace_lines text :
  split LF (cleanTrailingWhitespace text)
  = match smartCleanBlankLines (map trimEnd (split LF text)) with
    | [] => [[]]
    | out => out
    end.
Proof.
  unfold cleanTrailingWhitespace.
  destruct (smartCleanBlankLines _) as [|x out] eqn:E; [done|].
  apply split_join; [done|]. rewrite <- E.
  eapply sublist_no_sep; [apply smartCleanBlankLines_sublist_of|].
  apply trimmed_lines_no_LF.
Qed.

(** X8. No line of the result ends with whitespace. *)
Theorem cleanTrailingWhitespace_strips_every_line (text l : jsstring) :
  l ∈ split LF (cleanTrailingWhitespace text) -> noTrailingWhitespace l.
Proof.
  rewrite cleanTrailingWhitespace_lines. intros Hl.
  assert (Hin : l = [] \/ l ∈ smartCleanBlankLines (map trimEnd (split LF text))).
  { destruct (smartCleanBlankLines _); [|by right].
    apply list_elem_of_singleton in Hl. by left. }
  destruct Hin as [->|Hin]; [by intros c|].
  eapply elem_of_sublist in Hin; [|apply smartCleanBlankLines_sublist_of].
  apply list_elem_of_In, in_map_iff in Hin as (x & <- & _).
  apply trimEnd_noTrailingWhitespace.
Qed.

Lemma cleanTrailingWhitespace_strips_every_line_witness :
  let text := str "a  " ++ [LF] ++ [9%N] ++ [LF] ++ str " b " in
  str " b" ∈ split LF (cleanTrailingWhitespace text)
  /\ noTrailingWhitespace (str " b").
Proof.
  intros text.
  assert (H : str " b" ∈ split LF (cleanTrailingWhitespace text)).
  { change (split LF (cleanTrailingWhitespace text))
      with [str "a"; str ""; str " b"].
    apply elem_of_cons. right. apply elem_of_cons. right.
    apply elem_of_cons. by left. }
  split; [exact H|].
  exact (cleanTrailingWhitespace_strips_every_line text (str " b") H).
Defined.

Lemma filter_nonBlank_map_trimEnd (lines : list jsstring) :
  List.filter nonBlank (map trimEnd lines) = map trimEnd (List.filter nonBlank lines).
Proof.
  induction lines as [|l lines IH]; [done|]. simpl.
  rewrite nonBlank_trimEnd. destruct (nonBlank l); simpl; by rewrite IH.
Qed.

(** X9. The lines that are not blank survive, in order, changed only by the
    removal of their trailing whitespace. *)
Theorem cleanTrailingWhitespace_keeps_nonblank (text : jsstring) :
  List.filter nonBlank (split LF (cleanTrailingWhitespace text))
  = map trimEnd (List.filter nonBlank (split LF text)).
Proof.
  rewrite cleanTrailingWhitespace_lines.
  transitivity (List.filter nonBlank
                  (smartCleanBlankLines (map trimEnd (split LF text)))).
  { by destruct (smartCleanBlankLines _). }
  rewrite smartCleanBlankLines_normalize. unfold Spec.normalize.
  rewrite filter_nonBlank_normalizeFrom. apply filter_nonBlank_map_trimEnd.
Qed.

(** X10. The result never has more lines than the input. *)
Theorem cleanTrailingWhitespace_line_count (text : jsstring) :
  length (split LF (cleanTrailingWhitespace text)) <= length (split LF text).
Proof.
  rewrite cleanTrailingWhitespace_lines.
  pose proof (sublist_length _ _
    (smartCleanBlankLines_sublist_of (map trimEnd (split LF text)))) as Hlen.
  rewrite length_map in Hlen.
  pose proof (split_nonempty LF text) as Hne.
  destruct (smartCleanBlankLines _); [|done].
  destruct (split LF text); [done|]. simpl. lia.
Qed.

Lemma normalizeFrom_all_blank (rest : list jsstring) :
  Forall (fun l => trim l = []) rest -> Spec.normalizeFrom [] rest = [].
Proof.
  induction 1 as [|l rest Hl _ IH]; [done|]. simpl.
  unfold Spec.isBlankLine. rewrite Hl. simpl.
  unfold Spec.blankVerdict. simpl.
  by destruct (Spec.startsWithCloser _).
Qed.

Lemma whitespace_lines_all_dropped text :
  (forall c, c ∈ text -> isWhiteSpace c = true) ->
  smartCleanBlankLines (map trimEnd (split LF text)) = [].
Proof.
  intros Hws.
  rewrite smartCleanBlankLines_normalize. unfold Spec.normalize.
  apply normalizeFrom_all_blank.
  apply Forall_forall. intros l Hl.
  apply list_elem_of_In, in_map_iff in Hl as (x & <- & Hx).
  apply list_elem_of_In in Hx.
  rewrite trimEnd_whitespace; [done|].
  intros c Hc. apply Hws. by apply (split_elem_of LF text x).
Qed.

(** X11. A text made of whitespace only (spaces, tabs, newlines) is cleaned to
    the empty string: every line is blank and a blank line is never the
    first line of the output. *)
Theorem whitespace_only_cleaned_to_empty (text : jsstring) :
  (forall c, c ∈ text -> isWhiteSpace c = true) ->
  cleanTrailingWhitespace text = [].
Proof.
  intros Hws. unfold cleanTrailingWhitespace.
  by rewrite whitespace_lines_all_dropped.
Qed.

Lemma whitespace_only_cleaned_to_empty_witness :
  let text := str "  " ++ [LF] ++ [9%N] ++ [LF] in
  (forall c, c ∈ text -> isWhiteSpace c = true)
  /\ cleanTrailingWhitespace text = [].
Proof.
  intros text.
  assert (H : forall c, c ∈ text -> isWhiteSpace c = true).
  { intros c Hc. repeat (apply elem_of_cons in Hc as [->|Hc]; [reflexivity|]).
    by apply elem_of_nil in Hc. }
  split; [exact H|]. exact (whitespace_only_cleaned_to_empty text H).
Defined.

Lemma clean_lines_kept text :
  (forall l, l ∈ split LF text -> trim l <> [] /\ noTrailingWhitespace l) ->
  smartCleanBlankLines (map trimEnd (split LF text)) = split LF text.
Proof.
  intros Hclean.
  assert (Hmap : map trimEnd (split LF text) = split LF text).
  { rewrite <- (map_id (split LF text)) at 2. apply map_ext_in.
    intros l Hl. apply trimEnd_fixed, Hclean. by apply list_elem_of_In. }
  rewrite Hmap, smartCleanBlankLines_normalize.
  apply normalize_without_blank.
  intros i (x & Hx & Hbx). apply list_elem_of_lookup_2 in Hx.
  by destruct (Hclean x Hx).
Qed.

(** X12. A text in which no line is blank and no line ends with whitespace is
    returned as it is. *)
Theorem clean_text_unchanged (text : jsstring) :
  (forall l, l ∈ split LF text -> trim l <> [] /\ noTrailingWhitespace l) ->
  cleanTrailingWhitespace text = text.
Proof.
  intros Hclean. unfold cleanTrailingWhitespace.
  rewrite clean_lines_kept by done. apply join_split.
Qed.

Lemma clean_text_unchanged_witness :
  let text := str "  a" ++ [LF] ++ str "b" in
  (forall l, l ∈ split LF text -> trim l <> [] /\ noTrailingWhitespace l)
  /\ cleanTrailingWhitespace text = text.
Proof.
  intros text.
  assert (H : forall l, l ∈ split LF text -> trim l <> [] /\ noTrailingWhitespace l).
  { intros l Hl. change (split LF text) with [str "  a"; str "b"] in Hl.
    repeat (apply elem_of_cons in Hl as [->|Hl];
            [split; [discriminate | intros c [= <-]; reflexivity]|]).
    by apply elem_of_nil in Hl. }
  split; [exact H|]. exact (clean_text_unchanged text H).
Defined.

(** ** [cleanCodeBlock] *)

(** X13. A block is returned as it is exactly when its interior lines are
    already clean: no trailing whitespace to strip, no blank line to drop. *)
Theorem cleanCodeBlock_unchanged_iff (content : jsstring) f mid l :
  split LF content = f :: mid ++ [l] ->
  (cleanCodeBlock content = content
   <-> smartCleanBlankLines (map trimEnd mid) = mid).
Proof.
  intros Hs. pose proof (cleanCodeBlock_lines _ _ _ _ Hs) as Hc. split.
  - intros Heq. rewrite Heq, Hs in Hc.
    injection Hc as Hc. by apply app_inv_tail in Hc.
  - intros Hmid. rewrite Hmid, <- Hs in Hc.
    by rewrite <- (join_split LF (cleanCodeBlock content)), Hc, join_split.
Qed.

Lemma cleanCodeBlock_unchanged_iff_witness :
  let content := str "```" ++ [LF] ++ str "a" ++ [LF] ++ [LF] ++ str "b" ++ [LF]
                 ++ str "```" in
  split LF content = str "```" :: [str "a"; str ""; str "b"] ++ [str "```"]
  /\ (cleanCodeBlock content = content
      <-> smartCleanBlankLines (map trimEnd [str "a"; str ""; str "b"])
          = [str "a"; str ""; str "b"]).
Proof.
  intros content.
  assert (H : split LF content
              = str "```" :: [str "a"; str ""; str "b"] ++ [str "```"])
    by reflexivity.
  split; [exact H|]. exact (cleanCodeBlock_unchanged_iff content _ _ _ H).
Defined.

(** X14. No interior line of a cleaned block ends with whitespace (the fence
    lines are kept as they are, trailing whitespace included). *)
Theorem cleanCodeBlock_interior_stripped (content : jsstring) f mid l :
  split LF content = f :: mid ++ [l] ->
  exists mid',
    split LF (cleanCodeBlock content) = f :: mid' ++ [l]
    /\ mid' `sublist_of` map trimEnd mid
    /\ forall x, x ∈ mid' -> noTrailingWhitespace x.
Proof.
  intros Hs. exists (smartCleanBlankLines (map trimEnd mid)).
  split; [by apply cleanCodeBlock_lines|].
  split; [apply smartCleanBlankLines_sublist_of|].
  intros x Hx.
  eapply elem_of_sublist in Hx; [|apply smartCleanBlankLines_sublist_of].
  apply list_elem_of_In, in_map_iff in Hx as (y & <- & _).
  apply trimEnd_noTrailingWhitespace.
Qed.

Lemma cleanCodeBlock_interior_stripped_witness :
  let content := str "``` " ++ [LF] ++ str "a  " ++ [LF] ++ str "``` " in
  split LF content = str "``` " :: [str "a  "] ++ [str "``` "]
  /\ exists mid',
       split LF (cleanCodeBlock content) = str "``` " :: mid' ++ [str "``` "]
       /\ mid' `sublist_of` map trimEnd [str "a  "]
       /\ forall x, x ∈ mid' -> noTrailingWhitespace x.
Proof.
  intros content.
  assert (H : split LF content = str "``` " :: [str "a  "] ++ [str "``` "])
    by reflexivity.
  split; [exact H|]. exact (cleanCodeBlock_interior_stripped content _ _ _ H).
Defined.

(** X15. Cleaning a block never adds a line. *)
Theorem cleanCodeBlock_line_count (content : jsstring) :
  length (split LF (cleanCodeBlock content)) <= length (split LF content).
Proof.
  destruct (Nat.lt_ge_cases (length (split LF content)) 2) as [Hlt|Hge].
  - unfold cleanCodeBlock.
    by destruct (Nat.ltb_spec (length (split LF content)) 2); [|lia].
  - destruct (two_lines_shape _ Hge) as (f & mid & l & Hs).
    rewrite (cleanCodeBlock_lines _ _ _ _ Hs), Hs. simpl.
    rewrite !length_app. simpl.
    pose proof (sublist_length _ _
      (smartCleanBlankLines_sublist_of (map trimEnd mid))) as Hlen.
    rewrite length_map in Hlen. lia.
Qed.

(** ** [getCodeBlockAtCursor]: edge cases and composition *)

Lemma located_pair (editor : Editor) (b : CodeBlockInfo) :
  getCodeBlockAtCursor editor = Some b ->
  exists s e,
    (s, e) ∈ Spec.fencePairs (split LF (getValue editor))
    /\ Spec.encloses (line (getCursor editor)) (s, e) = true
    /\ b = Spec.blockSpan (split LF (getValue editor)) s e
    /\ s < e < length (split LF (getValue editor)).
Proof.
  intros Hb. rewrite getCodeBlockAtCursor_locate in Hb.
  unfold Spec.locate in Hb.
  destruct (List.find _ _) as [[s e]|] eqn:Hfind; [|done].
  injection Hb as <-.
  apply List.find_some in Hfind as [Hin Hc].
  apply list_elem_of_In in Hin.
  exists s, e. repeat split; try done;
    by apply (pairFences_sound (split LF (getValue editor)) [] None s e) in Hin
      as ([? ?] & _).
Qed.

Lemma pairFences_no_fence (rest : list jsstring) i opened :
  Forall (fun l => Spec.isFenceLine l = false) rest ->
  Spec.pairFences rest i opened = [].
Proof.
  intros H. revert i. induction H as [|l rest Hl _ IH]; intros i; [done|].
  simpl. by rewrite Hl.
Qed.

(** X16. In a document without a fence line no cursor position finds a block. *)
Theorem no_fence_no_block (editor : Editor) :
  (forall l, l ∈ split LF (getValue editor) ->
     startsWith fence (trimStart l) = false) ->
  getCodeBlockAtCursor editor = None.
Proof.
  intros Hnone. rewrite getCodeBlockAtCursor_locate.
  unfold Spec.locate, Spec.fencePairs.
  rewrite pairFences_no_fence; [done|]. by apply Forall_forall.
Qed.

Lemma no_fence_no_block_witness :
  let editor := {| getCursor := {| line := 1; ch := 0 |};
                   getValue := str "a `` b" ++ [LF] ++ str "c" |} in
  (forall l, l ∈ split LF (getValue editor) ->
     startsWith fence (trimStart l) = false)
  /\ getCodeBlockAtCursor editor = None.
Proof.
  intros editor.
  assert (H : forall l, l ∈ split LF (getValue editor) ->
                startsWith fence (trimStart l) = false).
  { intros l Hl. change (split LF (getValue editor)) with [str "a `` b"; str "c"] in Hl.
    repeat (apply elem_of_cons in Hl as [->|Hl]; [reflexivity|]).
    by apply elem_of_nil in Hl. }
  split; [exact H|]. exact (no_fence_no_block editor H).
Defined.

(** X17. A cursor line before the first line or past the last line of the
    document finds no block. *)
Theorem cursor_out_of_range_no_block (editor : Editor) :
  (line (getCursor editor) < 0
   \/ Z.of_nat (length (split LF (getValue editor))) <= line (getCursor editor))%Z ->
  getCodeBlockAtCursor editor = None.
Proof.
  intros Hout.
  destruct (getCodeBlockAtCursor editor) as [b|] eqn:Hb; [exfalso|done].
  apply located_pair in Hb as (s & e & _ & Hc & _ & Hse).
  apply encloses_iff in Hc. lia.
Qed.

Lemma cursor_out_of_range_no_block_witness :
  ((line (getCursor (scenarioE 7)) < 0
    \/ Z.of_nat (length (split LF (getValue (scenarioE 7))))
       <= line (getCursor (scenarioE 7)))%Z)
  /\ getCodeBlockAtCursor (scenarioE 7) = None.
Proof.
  assert (H : (line (getCursor (scenarioE 7)) < 0
               \/ Z.of_nat (length (split LF (getValue (scenarioE 7))))
                  <= line (getCursor (scenarioE 7)))%Z)
    by (right; vm_compute; discriminate).
  split; [exact H|]. exact (cursor_out_of_range_no_block (scenarioE 7) H).
Defined.

(** X18. The block found does not depend on where in the block the cursor is:
    every cursor line from the opening to the closing fence gives the same
    result. *)
Theorem same_block_from_any_line_inside (editor : Editor) (b : CodeBlockInfo)
    (cursor' : Position) :
  getCodeBlockAtCursor editor = Some b ->
  (line (from b) <= line cursor' <= line (to b))%Z ->
  getCodeBlockAtCursor {| getCursor := cursor'; getValue := getValue editor |}
  = Some b.
Proof.
  intros Hb Hc.
  apply located_pair in Hb as (s & e & Hin & _ & -> & _).
  rewrite getCodeBlockAtCursor_locate. unfold Spec.locate. simpl in *.
  pose proof (pairFences_find (line cursor') (split LF (getValue editor)) []
                None s e) as Hfind.
  simpl in Hfind. unfold Spec.fencePairs in *.
  rewrite Hfind; [done|done|done|]. by apply encloses_iff.
Qed.

Lemma same_block_from_any_line_inside_witness :
  let b := Spec.blockSpan (split LF (getValue (scenarioE 2))) 1 5 in
  (getCodeBlockAtCursor (scenarioE 2) = Some b
   /\ (line (from b) <= 5 <= line (to b))%Z)
  /\ getCodeBlockAtCursor {| getCursor := {| line := 5; ch := 3 |};
                             getValue := getValue (scenarioE 2) |} = Some b.
Proof.
  intros b.
  assert (H : getCodeBlockAtCursor (scenarioE 2) = Some b) by reflexivity.
  assert (Hc : (line (from b) <= line {| line := 5; ch := 3 |} <= line (to b))%Z)
    by (vm_compute; split; discriminate).
  split; [by split|].
  exact (same_block_from_any_line_inside (scenarioE 2) b _ H Hc).
Defined.

Lemma located_content_lines (editor : Editor) (b : CodeBlockInfo) :
  getCodeBlockAtCursor editor = Some b ->
  exists s e,
    line (from b) = Z.of_nat s /\ line (to b) = Z.of_nat e
    /\ s < e < length (split LF (getValue editor))
    /\ split LF (content b)
       = take (S e - s) (drop s (split LF (getValue editor))).
Proof.
  intros Hb. apply located_pair in Hb as (s & e & _ & _ & -> & Hse).
  exists s, e. simpl. repeat split; try lia.
  apply split_join.
  - intros Hnil. apply (f_equal length) in Hnil.
    rewrite length_take, length_drop in Hnil. simpl in Hnil. lia.
  - apply Forall_take, Forall_drop, split_no_sep.
Qed.

(** X19. Cleaning the block found at the cursor leaves the document's two fence
    lines as they are: the block has at least two lines, so the guard of
    [cleanCodeBlock] does not fire, and the first and last line of the
    cleaned text are the document lines at the span's first and last line
    index. *)
Theorem located_block_cleaning_keeps_fences (editor : Editor) (b : CodeBlockInfo) :
  getCodeBlockAtCursor editor = Some b ->
  let doc := split LF (getValue editor) in
  Z.of_nat (length (split LF (content b))) = (line (to b) - line (from b) + 1)%Z
  /\ 2 <= length (split LF (content b))
  /\ head (split LF (cleanCodeBlock (content b))) = doc !! Z.to_nat (line (from b))
  /\ last (split LF (cleanCodeBlock (content b))) = doc !! Z.to_nat (line (to b))
  /\ is_Some (doc !! Z.to_nat (line (from b)))
  /\ is_Some (doc !! Z.to_nat (line (to b))).
Proof.
  intros Hb doc.
  destruct (located_content_lines _ _ Hb) as (s & e & -> & -> & Hse & Hlines).
  fold doc in Hse, Hlines. rewrite !Nat2Z.id.
  assert (Hlen : length (split LF (content b)) = S e - s).
  { rewrite Hlines, length_take, length_drop. lia. }
  assert (Hhead : head (split LF (content b)) = doc !! s).
  { rewrite Hlines, head_lookup, lookup_take_lt, lookup_drop by lia.
    f_equal. lia. }
  assert (Hlast : last (split LF (content b)) = doc !! e).
  { rewrite last_lookup, Hlen, Hlines, lookup_take_lt, lookup_drop by lia.
    f_equal. lia. }
  assert (H2 : 2 <= length (split LF (content b))) by lia.
  destruct (two_lines_shape _ H2) as (f & mid & l & Hs).
  rewrite (cleanCodeBlock_lines _ _ _ _ Hs).
  rewrite Hs in Hhead, Hlast. rewrite last_cons, last_snoc in Hlast.
  rewrite last_cons, last_snoc. simpl in Hhead. simpl.
  split; [lia|]. split; [lia|]. split; [done|]. split; [done|].
  split; [by rewrite <- Hhead | by rewrite <- Hlast].
Qed.

Lemma located_block_cleaning_keeps_fences_witness :
  let b := Spec.blockSpan (split LF (getValue (scenarioE 3))) 1 5 in
  let doc := split LF (getValue (scenarioE 3)) in
  getCodeBlockAtCursor (scenarioE 3) = Some b
  /\ Z.of_nat (length (split LF (content b))) = (line (to b) - line (from b) + 1)%Z
  /\ 2 <= length (split LF (content b))
  /\ head (split LF (cleanCodeBlock (content b))) = doc !! Z.to_nat (line (from b))
  /\ last (split LF (cleanCodeBlock (content b))) = doc !! Z.to_nat (line (to b))
  /\ is_Some (doc !! Z.to_nat (line (from b)))
  /\ is_Some (doc !! Z.to_nat (line (to b))).
Proof.
  intros b doc.
  assert (H : getCodeBlockAtCursor (scenarioE 3) = Some b) by reflexivity.
  split; [exact H|].
  exact (located_block_cleaning_keeps_fences (scenarioE 3) b H).
Defined.

(** ** The commands *)

Lemma strictNotEqual_true a b : strictNotEqual a b = true <-> a <> b.
Proof.
  unfold strictNotEqual. rewrite negb_true_iff. apply bool_decide_eq_false.
Qed.

(** X20. Every run of the clean command shows exactly one notice, as its last
    call, after at most one edit; it never moves the selection. *)
Theorem cleanCodeBlockCommand_calls (editor : SelectingEditor) :
  exists message,
    cleanCodeBlockCommand editor = [newNotice message]
    \/ exists edit, isEdit edit = true
                    /\ cleanCodeBlockCommand editor = [edit; newNotice message].
Proof.
  unfold cleanCodeBlockCommand.
  destruct (negb (isEmpty (getSelection editor))).
  - destruct (strictNotEqual _ _).
    + eexists. right. eexists. split; [|reflexivity]. reflexivity.
    + eexists. by left.
  - destruct (getCodeBlockAtCursor editor) as [b|]; [|eexists; by left].
    destruct (strictNotEqual _ _).
    + eexists. right. eexists. split; [|reflexivity]. reflexivity.
    + eexists. by left.
Qed.

(** X21. A selection takes precedence over the block at the cursor: with a
    selection the command never replaces a range, and without one it never
    replaces the selection. *)
Theorem selection_takes_precedence (editor : SelectingEditor) :
  (getSelection editor <> [] ->
   forall t f e, replaceRange t f e ∉ cleanCodeBlockCommand editor)
  /\ (getSelection editor = [] ->
      forall t, replaceSelection t ∉ cleanCodeBlockCommand editor).
Proof.
  unfold cleanCodeBlockCommand. split.
  - intros Hsel t f e. apply isEmpty_false in Hsel. rewrite Hsel. simpl.
    destruct (strictNotEqual _ _); intros Hin;
      repeat (apply elem_of_cons in Hin as [?|Hin]; [done|]);
      by apply elem_of_nil in Hin.
  - intros -> t. simpl.
    destruct (getCodeBlockAtCursor editor) as [b|];
      [destruct (strictNotEqual _ _)|]; intros Hin;
      repeat (apply elem_of_cons in Hin as [?|Hin]; [done|]);
      by apply elem_of_nil in Hin.
Qed.

Lemma selection_takes_precedence_witness :
  let editor := {| baseEditor := scenarioE 2; getSelection := str "x  " |} in
  getSelection editor <> []
  /\ forall t f e, replaceRange t f e ∉ cleanCodeBlockCommand editor.
Proof.
  intros editor.
  assert (H : getSelection editor <> []) by discriminate.
  split; [exact H|]. exact (proj1 (selection_takes_precedence editor) H).
Defined.

(** X22. The command never makes an edit that changes nothing: a replacement
    of the selection is its cleaned text and differs from it; a replaced
    range is the span of the block at the cursor, and the replacement is
    the cleaned block and differs from the block's text. *)
Theorem edits_change_the_text (editor : SelectingEditor) :
  (forall t, replaceSelection t ∈ cleanCodeBlockCommand editor ->
     t = cleanTrailingWhitespace (getSelection editor)
     /\ t <> getSelection editor)
  /\ (forall t f e, replaceRange t f e ∈ cleanCodeBlockCommand editor ->
        exists b, getCodeBlockAtCursor editor = Some b
                  /\ f = from b /\ e = to b
                  /\ t = cleanCodeBlock (content b) /\ t <> content b).
Proof.
  unfold cleanCodeBlockCommand. split.
  - intros t. destruct (negb (isEmpty (getSelection editor))).
    + destruct (strictNotEqual _ _) eqn:Hne; intros Hin;
        repeat (apply elem_of_cons in Hin as [Heq|Hin]; [try done|]);
        try by apply elem_of_nil in Hin.
      injection Heq as ->. split; [done|]. by apply strictNotEqual_true.
    + destruct (getCodeBlockAtCursor editor) as [b|];
        [destruct (strictNotEqual _ _)|]; intros Hin;
        repeat (apply elem_of_cons in Hin as [?|Hin]; [done|]);
        by apply elem_of_nil in Hin.
  - intros t f e. destruct (negb (isEmpty (getSelection editor))).
    + destruct (strictNotEqual _ _); intros Hin;
        repeat (apply elem_of_cons in Hin as [?|Hin]; [done|]);
        by apply elem_of_nil in Hin.
    + destruct (getCodeBlockAtCursor editor) as [b|];
        [destruct (strictNotEqual _ _) eqn:Hne|]; intros Hin;
        repeat (apply elem_of_cons in Hin as [Heq|Hin]; [try done|]);
        try by apply elem_of_nil in Hin.
      injection Heq as -> -> ->. exists b. repeat split; try done.
      by apply strictNotEqual_true.
Qed.

Lemma edits_change_the_text_witness :
  let editor := {| baseEditor := scenarioE 2; getSelection := str "" |} in
  let b := Spec.blockSpan (split LF (getValue (scenarioE 2))) 1 5 in
  replaceRange (cleanCodeBlock (content b)) (from b) (to b)
    ∈ cleanCodeBlockCommand editor
  /\ exists b', getCodeBlockAtCursor editor = Some b'
                /\ from b = from b' /\ to b = to b'
                /\ cleanCodeBlock (content b) = cleanCodeBlock (content b')
                /\ cleanCodeBlock (content b) <> content b'.
Proof.
  intros editor b.
  assert (H : replaceRange (cleanCodeBlock (content b)) (from b) (to b)
                ∈ cleanCodeBlockCommand editor).
  { change (cleanCodeBlockCommand editor)
      with [replaceRange (cleanCodeBlock (content b)) (from b) (to b);
            newNotice "Cleaned trailing whitespace in code block"].
    apply elem_of_cons. by left. }
  split; [exact H|].
  exact (proj2 (edits_change_the_text editor) _ _ _ H).
Defined.

(** X23. The range the clean command replaces is the range the select command
    selects. *)
Theorem clean_replaces_what_select_selects (editor : SelectingEditor) t f e :
  replaceRange t f e ∈ cleanCodeBlockCommand editor ->
  setSelection f e ∈ selectCodeBlockCommand editor.
Proof.
  unfold cleanCodeBlockCommand, selectCodeBlockCommand.
  destruct (negb (isEmpty (getSelection editor))).
  - destruct (strictNotEqual _ _); intros Hin;
      repeat (apply elem_of_cons in Hin as [?|Hin]; [done|]);
      by apply elem_of_nil in Hin.
  - destruct (getCodeBlockAtCursor editor) as [b|];
      [destruct (strictNotEqual _ _)|]; intros Hin;
      repeat (apply elem_of_cons in Hin as [Heq|Hin]; [try done|]);
      try by apply elem_of_nil in Hin.
    injection Heq as -> -> ->. apply elem_of_cons. by left.
Qed.

Lemma clean_replaces_what_select_selects_witness :
  let editor := {| baseEditor := scenarioE 4; getSelection := str "" |} in
  let b := Spec.blockSpan (split LF (getValue (scenarioE 4))) 1 5 in
  replaceRange (cleanCodeBlock (content b)) (from b) (to b)
    ∈ cleanCodeBlockCommand editor
  /\ setSelection (from b) (to b) ∈ selectCodeBlockCommand editor.
Proof.
  intros editor b.
  assert (H : replaceRange (cleanCodeBlock (content b)) (from b) (to b)
                ∈ cleanCodeBlockCommand editor).
  { change (cleanCodeBlockCommand editor)
      with [replaceRange (cleanCodeBlock (content b)) (from b) (to b);
            newNotice "Cleaned trailing whitespace in code block"].
    apply elem_of_cons. by left. }
  split; [exact H|].
  exact (clean_replaces_what_select_selects editor _ _ _ H).
Defined.

(** X24. The select command selects whole lines: from character 0 of the
    opening fence line to the end of the closing fence line, which comes
    later in the document. *)
Theorem selection_spans_whole_lines (editor : Editor) (f e : Position) :
  setSelection f e ∈ selectCodeBlockCommand editor ->
  let doc := split LF (getValue editor) in
  ch f = 0%Z
  /\ (0 <= line f < line e)%Z
  /\ (line f <= line (getCursor editor) <= line e)%Z
  /\ exists endLine, doc !! Z.to_nat (line e) = Some endLine
                     /\ ch e = Z.of_nat (length endLine).
Proof.
  unfold selectCodeBlockCommand. cbv zeta.
  set (doc := split LF (getValue editor)).
  destruct (getCodeBlockAtCursor editor) as [b|] eqn:Hb; intros Hin;
    repeat (apply elem_of_cons in Hin as [Heq|Hin]; [try done|]);
    try by apply elem_of_nil in Hin.
  injection Heq as -> ->.
  apply located_pair in Hb as (s & e & _ & Hc & -> & Hse).
  apply encloses_iff in Hc. fold doc in Hse. simpl. rewrite Nat2Z.id.
  split; [done|]. split; [lia|]. split; [done|].
  destruct (lookup_lt_is_Some_2 doc e) as [endLine He]; [lia|].
  exists endLine. split; [done|].
  do 2 f_equal. exact (f_equal (default []) He).
Qed.

Lemma selection_spans_whole_lines_witness :
  let b := Spec.blockSpan (split LF (getValue (scenarioE 2))) 1 5 in
  let doc := split LF (getValue (scenarioE 2)) in
  setSelection (from b) (to b) ∈ selectCodeBlockCommand (scenarioE 2)
  /\ ch (from b) = 0%Z
  /\ (0 <= line (from b) < line (to b))%Z
  /\ (line (from b) <= line (getCursor (scenarioE 2)) <= line (to b))%Z
  /\ exists endLine, doc !! Z.to_nat (line (to b)) = Some endLine
                     /\ ch (to b) = Z.of_nat (length endLine).
Proof.
  intros b doc.
  assert (H : setSelection (from b) (to b) ∈ selectCodeBlockCommand (scenarioE 2)).
  { change (selectCodeBlockCommand (scenarioE 2))
      with [setSelection (from b) (to b); newNotice "Code block selected"].
    apply elem_of_cons. by left. }
  split; [exact H|].
  exact (selection_spans_whole_lines (scenarioE 2) _ _ H).
Defined.

(** ** The paste handler *)

(** X25. A paste is handled all or nothing: either no call is made and the
    host pastes as usual, or the default is prevented and the cleaned
    clipboard text, which differs from the clipboard text, is inserted in
    its place. *)
Theorem handlePaste_all_or_nothing (evt : ClipboardEvent) :
  handlePaste evt = []
  \/ exists text,
       clipboardData evt = Some text /\ text <> []
       /\ cleanTrailingWhitespace text <> text
       /\ handlePaste evt
          = [preventDefault; replaceSelection (cleanTrailingWhitespace text)].
Proof.
  unfold handlePaste. destruct (clipboardData evt) as [text|]; [|by left].
  destruct (isEmpty text) eqn:He; [by left|].
  destruct (strictNotEqual _ _) eqn:Hne; [right|by left].
  exists text. repeat split; try done.
  - by apply isEmpty_false.
  - by apply strictNotEqual_true.
Qed.

(** X26. A clipboard text in which no line is blank and no line ends with
    whitespace is pasted by the host as usual, whatever the settings. *)
Theorem clean_paste_not_intercepted (settings : PasteCodeCleanerSettings)
    (evt : ClipboardEvent) (text : jsstring) :
  clipboardData evt = Some text ->
  (forall l, l ∈ split LF text -> trim l <> [] /\ noTrailingWhitespace l) ->
  onEditorPaste settings evt = [].
Proof.
  intros Hevt Hclean. unfold onEditorPaste, handlePaste. rewrite Hevt.
  destruct (autoCleanOnPaste settings); [|done].
  destruct (isEmpty text); [done|].
  unfold cleanTrailingWhitespace, strictNotEqual.
  rewrite clean_lines_kept, join_split by done.
  by rewrite bool_decide_eq_true_2.
Qed.

Lemma clean_paste_not_intercepted_witness :
  let text := str "  a" ++ [LF] ++ str "b" in
  let evt := {| clipboardData := Some text |} in
  let settings := {| autoCleanOnPaste := true |} in
  (clipboardData evt = Some text
   /\ forall l, l ∈ split LF text -> trim l <> [] /\ noTrailingWhitespace l)
  /\ onEditorPaste settings evt = [].
Proof.
  intros text evt settings.
  assert (H : forall l, l ∈ split LF text -> trim l <> [] /\ noTrailingWhitespace l).
  { intros l Hl. change (split LF text) with [str "  a"; str "b"] in Hl.
    repeat (apply elem_of_cons in Hl as [->|Hl];
            [split; [discriminate | intros c [= <-]; reflexivity]|]).
    by apply elem_of_nil in Hl. }
  split; [by split|].
  exact (clean_paste_not_intercepted settings evt text eq_refl H).
Defined.

(** X27. A clipboard text made of whitespace only is intercepted and replaced
    by the empty string: with auto-clean on, pasting spaces or blank lines
    inserts nothing. *)
Theorem whitespace_paste_inserts_nothing (evt : ClipboardEvent) (text : jsstring) :
  clipboardData evt = Some text ->
  text <> [] ->
  (forall c, c ∈ text -> isWhiteSpace c = true) ->
  handlePaste evt = [preventDefault; replaceSelection []].
Proof.
  intros Hevt Hne Hws. unfold handlePaste. rewrite Hevt.
  apply isEmpty_false in Hne as He. rewrite He.
  unfold cleanTrailingWhitespace. rewrite whitespace_lines_all_dropped by done.
  simpl. unfold strictNotEqual.
  by rewrite bool_decide_eq_false_2.
Qed.

Lemma whitespace_paste_inserts_nothing_witness :
  let text := str "  " ++ [LF] in
  let evt := {| clipboardData := Some text |} in
  (clipboardData evt = Some text /\ text <> []
   /\ forall c, c ∈ text -> isWhiteSpace c = true)
  /\ handlePaste evt = [preventDefault; replaceSelection []].
Proof.
  intros text evt.
  assert (Hne : text <> []) by discriminate.
  assert (H : forall c, c ∈ text -> isWhiteSpace c = true).
  { intros c Hc. repeat (apply elem_of_cons in Hc as [->|Hc]; [reflexivity|]).
    by apply elem_of_nil in Hc. }
  split; [by repeat split|].
  exact (whitespace_paste_inserts_nothing evt text eq_refl Hne H).
Defined.

(** X28. Unless the saved data sets [autoCleanOnPaste] to true, pastes are never
    intercepted: nothing saved and a missing key both give the default,
    which is off. When it is saved as true every paste goes through
    [handlePaste]. *)
Theorem paste_cleaning_is_opt_in (data : option PartialSettings)
    (evt : ClipboardEvent) :
  ((forall saved, data = Some saved -> savedAutoCleanOnPaste saved <> Some true) ->
   onEditorPaste (loadSettings data) evt = [])
  /\ ((exists saved, data = Some saved /\ savedAutoCleanOnPaste saved = Some true) ->
      onEditorPaste (loadSettings data) evt = handlePaste evt).
Proof.
  unfold onEditorPaste, loadSettings. split.
  - intros Hoff. destruct data as [saved|]; [|done].
    specialize (Hoff saved eq_refl).
    by destruct (savedAutoCleanOnPaste saved) as [[]|].
  - intros (saved & -> & Hon). by rewrite Hon.
Qed.

Lemma paste_cleaning_is_opt_in_witness :
  let data := Some {| savedAutoCleanOnPaste := None |} in
  let evt := {| clipboardData := Some (str "x  ") |} in
  (forall saved, data = Some saved -> savedAutoCleanOnPaste saved <> Some true)
  /\ onEditorPaste (loadSettings data) evt = [].
Proof.
  intros data evt.
  assert (H : forall saved, data = Some saved ->
                savedAutoCleanOnPaste saved <> Some true).
  { intros saved Hs. injection Hs as <-. discriminate. }
  split; [exact H|]. exact (proj1 (paste_cleaning_is_opt_in data evt) H).
Defined.

Lemma second_pass_fixpoint_iff_witness :
  let lines := [str "a"; str ""; str ")"] in
  noBlankBeforeCloser (smartCleanBlankLines lines)
  /\ smartCleanBlankLines (smartCleanBlankLines lines) = smartCleanBlankLines lines.
Proof.
  intros lines.
  assert (H : noBlankBeforeCloser (smartCleanBlankLines lines)).
  { intros i y (x & Hx & Hbx) Hy.
    change (smartCleanBlankLines lines) with [str "a"; str ")"] in Hx, Hy.
    destruct i as [|[|i]]; [injection Hx as <-; discriminate| |discriminate].
    discriminate. }
  split; [exact H|]. exact (proj2 (second_pass_fixpoint_iff lines) H).
Defined.
